(** * Verification of the admin answer-reveal page (vibe-kahoot-2)

    Shallow embedding of [src/pages/AdminAnswerRevealPage.tsx]: the
    answer-board normalisation and sort, the leaderboard ranking, the
    reveal gate of the first effect, the correct-answer text and the
    [handleNextStep] transition with its in-flight guard.

    Numbers are JavaScript numbers holding integers (question indices,
    points, scores); they are modelled as [Z].  Values that may be [null]
    or [undefined] are [option]s.  The score table [allScores] is a JS
    object keyed by team id and is modelled as a [gmap string]. *)

From Stdlib Require Import ZArith Lia Sorting.Sorted Sorting.Permutation OrdersEx.
From stdpp Require Import gmap strings list sorting.

Local Open Scope string_scope.
Local Open Scope list_scope.
Local Open Scope Z_scope.

(** ** Data model *)

(** Modelled from the spec: the [GameStatus] union of [lib/firebase] is
    not part of the sources; its six members are those the data model
    lists.  The page itself names four of them. *)
Inductive GameStatus :=
  | lobby | question_display | answer_reveal | leaderboard | break | game_end.

Global Instance GameStatus_eq_dec : EqDecision GameStatus.
Proof. solve_decision. Defined.

(** A [Question] as the page reads it: [category], [options],
    [correctAnswerIndex] and [correctAnswer], the last three possibly
    missing. *)
Record Question := {
  q_id : string;
  q_text : string;
  q_category : string;
  q_options : option (list string);
  q_correctAnswerIndex : option Z;
  q_correctAnswer : option string
}.

(** The fields of [Game] the page reads.  [questionOrder] and
    [resultsReady] may be absent from a snapshot: the page guards
    [!game.questionOrder] and tests [resultsReady !== true]. *)
Record Game := {
  status : GameStatus;
  currentQuestionIndex : Z;
  questionOrder : option (list string);
  questions : list Question;
  resultsReady : option bool
}.

(** [isActive] is tested with [!== false], [name] with [||]: both may be
    missing. *)
Record Team := {
  t_id : string;
  t_name : option string;
  t_mascotId : Z;
  t_isActive : option bool
}.

Record TeamScore := { totalScore : Z }.

(** Result of [getTeamAnswerResult]: every field may be absent. *)
Record TeamAnswerResult := {
  r_selectedAnswer : option string;
  r_isCorrect : option bool;
  r_pointsAwarded : option Z;
  r_answerIndex : option Z
}.

(** [interface TeamAnswerDisplay]. *)
Record TeamAnswerDisplay := {
  teamId : string;
  teamName : string;
  selectedAnswer : option string;
  isCorrect : option bool;
  pointsAwarded : option Z;
  answerIndex : option Z
}.

(** An element of [teamsWithScores]: [{ ...team, points }]. *)
Record TeamWithScore := { ws_team : Team; points : Z }.

(** [interface RankedTeam]: [{ ...team, rank }]. *)
Record RankedTeam := { rt_team : TeamWithScore; rank : Z }.

(** ** JavaScript helpers *)

(** Truthiness of a possibly missing string: [null], [undefined] and the
    empty string are falsy. *)
Definition truthy_string (s : option string) : bool :=
  match s with
  | Some s => negb (String.eqb s "")
  | None => false
  end.

(** [a || b] on a possibly missing string. *)
Definition or_string (a : option string) (b : string) : string :=
  match a with
  | Some s => if String.eqb s "" then b else s
  | None => b
  end.

(** [a ?? b]. *)
Definition nullish {A} (a : option A) (b : A) : A :=
  match a with Some x => x | None => b end.

(** [Array.prototype.sort(compareFn)].  The sort is stable, so for a
    consistent comparator its result is the one stable sorted
    arrangement of the input, which insertion from the right computes:
    an element stays in front of every later element [y] with
    [compareFn x y <= 0]. *)
Section Sort.
Context {A : Type} (compareFn : A → A → Z).

Fixpoint sort_insert (x : A) (l : list A) : list A :=
  match l with
  | [] => [x]
  | y :: l' =>
      if compareFn x y <=? 0 then x :: y :: l' else y :: sort_insert x l'
  end.

Fixpoint sort (l : list A) : list A :=
  match l with
  | [] => []
  | x :: l' => sort_insert x (sort l')
  end.
End Sort.

(** ** Steps 2 and 3 of [processAndFetchData]: the answer board *)

(** [allTeamsForGame.filter(team => team.isActive !== false)]. *)
Definition isActiveTeam (team : Team) : bool :=
  match t_isActive team with
  | Some false => false
  | _ => true
  end.

Definition activeTeamsOf (allTeamsForGame : list Team) : list Team :=
  filter (λ team, isActiveTeam team = true) allTeamsForGame.

(** [team.name || `Team ${team.id.substring(0, 4)}`]. *)
Definition displayName (team : Team) : string :=
  or_string (t_name team) ("Team " ++ String.substring 0 4 (t_id team))%string.

(** The display text of a team that did not answer. *)
Definition unansweredText : string := "nije odgovoreno".

(** The callback of [teamResults.map(({ team, result }) => ...)]. *)
Definition processAnswer (team : Team) (result : option TeamAnswerResult)
  : TeamAnswerDisplay :=
  match result with
  | Some result =>
      {| teamId := t_id team;
         teamName := displayName team;
         selectedAnswer := r_selectedAnswer result;
         isCorrect := r_isCorrect result;
         pointsAwarded := r_pointsAwarded result;
         answerIndex := r_answerIndex result |}
  | None =>
      {| teamId := t_id team;
         teamName := displayName team;
         selectedAnswer := Some unansweredText;
         isCorrect := None;
         pointsAwarded := Some 0;
         answerIndex := Some (-1) |}
  end.

Section AnswerBoard.
(** [String.prototype.localeCompare] belongs to the host's
    internationalisation library; it is a parameter of the model. *)
Variable localeCompare : string → string → Z.

(** The comparator handed to [processedAnswersArray.sort]. *)
Definition compareAnswers (a b : TeamAnswerDisplay) : Z :=
  let aCorrect := nullish (isCorrect a) false in
  let bCorrect := nullish (isCorrect b) false in
  if negb (Bool.eqb aCorrect bCorrect) then (if bCorrect then 1 else -1)
  else
    let aPoints := nullish (pointsAwarded a) 0 in
    let bPoints := nullish (pointsAwarded b) 0 in
    if negb (aPoints =? bPoints) then bPoints - aPoints
    else localeCompare (teamName a) (teamName b).

(** [processedAnswersArray] after the sort, from the active teams and
    the per-team results ([None]: the team did not answer). *)
Definition processedAnswers (activeTeams : list Team)
    (resultOf : string → option TeamAnswerResult) : list TeamAnswerDisplay :=
  sort compareAnswers
    (map (λ team, processAnswer team (resultOf (t_id team))) activeTeams).
End AnswerBoard.

(** ** Steps 5 and 6: scores and ranks *)

(** [allScores[team.id]?.totalScore || 0]. *)
Definition scoreOf (allScores : gmap string TeamScore) (id : string) : Z :=
  match allScores !! id with
  | Some s => if totalScore s =? 0 then 0 else totalScore s
  | None => 0
  end.

Definition teamsWithScores (activeTeams : list Team)
    (allScores : gmap string TeamScore) : list TeamWithScore :=
  map (λ team, {| ws_team := team; points := scoreOf allScores (t_id team) |})
      activeTeams.

(** [(a, b) => b.points - a.points]. *)
Definition comparePoints (a b : TeamWithScore) : Z := points b - points a.

Definition sortByPoints (teams : list TeamWithScore) : list TeamWithScore :=
  sort comparePoints teams.

(** The body of [teamsArray.forEach((team, index) => ...)], with the two
    mutable locals [currentRank] and [previousPoints] threaded through. *)
Fixpoint rankLoop (index : nat) (currentRank previousPoints : Z)
    (teamsArray : list TeamWithScore) : list RankedTeam :=
  match teamsArray with
  | [] => []
  | team :: rest =>
      let advance := (0 <? index)%nat && (points team <? previousPoints) in
      let currentRank' := if advance then Z.of_nat index + 1 else currentRank in
      let previousPoints' := if advance then points team else previousPoints in
      {| rt_team := team; rank := currentRank' |}
        :: rankLoop (S index) currentRank' previousPoints' rest
  end.

(** [rankedTeamsData] for an already sorted [teamsArray]. *)
Definition rankTeams (teamsArray : list TeamWithScore) : list RankedTeam :=
  match teamsArray with
  | [] => []
  | first :: _ => rankLoop 0 1 (points first) teamsArray
  end.

(** [rankedTeamsData] from the active teams and the fetched scores. *)
Definition rankedTeamsData (activeTeams : list Team)
    (allScores : gmap string TeamScore) : list RankedTeam :=
  rankTeams (sortByPoints (teamsWithScores activeTeams allScores)).

(** The ranking rule in the words of the specification: the first team
    has rank 1; a later team keeps the current rank when its score
    equals the last-seen distinct score, and otherwise takes its 1-based
    position as rank and becomes the last-seen distinct score. *)
Fixpoint ruleLoop (index : nat) (currentRank lastDistinct : Z)
    (teams : list TeamWithScore) : list RankedTeam :=
  match teams with
  | [] => []
  | team :: rest =>
      if points team =? lastDistinct
      then {| rt_team := team; rank := currentRank |}
             :: ruleLoop (S index) currentRank lastDistinct rest
      else {| rt_team := team; rank := Z.of_nat index + 1 |}
             :: ruleLoop (S index) (Z.of_nat index + 1) (points team) rest
  end.

Definition rankByRule (teams : list TeamWithScore) : list RankedTeam :=
  match teams with
  | [] => []
  | first :: rest =>
      {| rt_team := first; rank := 1 |} :: ruleLoop 1 1 (points first) rest
  end.

(** Teams carrying the given scores, for concrete score lists. *)
Definition teamOfScore (score : Z) : TeamWithScore :=
  {| ws_team := {| t_id := "team"; t_name := None; t_mascotId := 0;
                   t_isActive := Some true |};
     points := score |}.

Definition teamsOfScores (scores : list Z) : list TeamWithScore :=
  map teamOfScore scores.

(** Non-increasing cumulative score. *)
Definition scoreGe (a b : TeamWithScore) : Prop := points b ≤ points a.

(** ** The correct-answer text shown by the page *)

Definition freeTextCategory : string := "Pogodite crtani".

Definition missingAnswerText : string :=
  "Greška: Tačan odgovor nedostaje u podacima pitanja".

(** [array[i]] for a numeric index: [undefined] outside the array. *)
Definition jsIndex {A} (l : list A) (i : Z) : option A :=
  if i <? 0 then None else l !! Z.to_nat i.

(** [derivedCorrectAnswerText].  The variable is assigned
    [options[correctAnswerIndex]] without a check against the length of
    [options]; [None] stands for the [undefined] read beyond the end of
    the array. *)
Definition derivedCorrectAnswerText (currentQuestion : option Question)
  : option string :=
  match currentQuestion with
  | None => Some "N/A"
  | Some q =>
      if String.eqb (q_category q) freeTextCategory
      then Some (or_string (q_correctAnswer q) missingAnswerText)
      else
        match q_options q, q_correctAnswerIndex q with
        | Some options, Some i =>
            if 0 <=? i then jsIndex options i
            else if truthy_string (q_correctAnswer q) then q_correctAnswer q
            else Some "N/A"
        | _, _ =>
            if truthy_string (q_correctAnswer q) then q_correctAnswer q
            else Some "N/A"
        end
  end.

(** The resolution in the words of the specification: the free-text
    category uses [correctAnswer], or the placeholder when it is
    missing; any other category uses [options[correctAnswerIndex]],
    falls back to [correctAnswer] when that is present, and to ["N/A"]
    otherwise. *)
Definition correctAnswerTextByRule (q : Question) : string :=
  if String.eqb (q_category q) freeTextCategory
  then or_string (q_correctAnswer q) missingAnswerText
  else
    match
      match q_options q, q_correctAnswerIndex q with
      | Some options, Some i => jsIndex options i
      | _, _ => None
      end
    with
    | Some text => text
    | None => or_string (q_correctAnswer q) "N/A"
    end.

(** ** The page: state, first effect and rendering *)

(** The [useState] cells of the component. *)
Record PageState := {
  error : option string;
  loading : bool;
  currentQuestion : option Question;
  teamAnswers : list TeamAnswerDisplay;
  rankedTeams : list RankedTeam;
  isLastQuestion : bool;
  isNavigating : bool
}.

(** The cells as [useState] initialises them. *)
Definition initialPage : PageState :=
  {| error := None; loading := true; currentQuestion := None;
     teamAnswers := []; rankedTeams := []; isLastQuestion := false;
     isNavigating := false |}.

(** What [useGameRealtimeState(gameCode)] hands to the page; [gameError]
    is the message of the error, when there is one. *)
Record HookState := {
  gameData : option Game;
  gameError : option string;
  gameLoading : bool
}.

(** A snapshot delivered by the subscription: loaded, without error. *)
Definition delivered (game : Game) : HookState :=
  {| gameData := Some game; gameError := None; gameLoading := false |}.

Definition setLoading (b : bool) (st : PageState) : PageState :=
  {| error := error st; loading := b; currentQuestion := currentQuestion st;
     teamAnswers := teamAnswers st; rankedTeams := rankedTeams st;
     isLastQuestion := isLastQuestion st; isNavigating := isNavigating st |}.

Definition setError (e : option string) (st : PageState) : PageState :=
  {| error := e; loading := loading st; currentQuestion := currentQuestion st;
     teamAnswers := teamAnswers st; rankedTeams := rankedTeams st;
     isLastQuestion := isLastQuestion st; isNavigating := isNavigating st |}.

Definition setIsNavigating (b : bool) (st : PageState) : PageState :=
  {| error := error st; loading := loading st;
     currentQuestion := currentQuestion st;
     teamAnswers := teamAnswers st; rankedTeams := rankedTeams st;
     isLastQuestion := isLastQuestion st; isNavigating := b |}.

Definition isAnswerReveal (s : GameStatus) : bool :=
  bool_decide (s = answer_reveal).

(** What the first [useEffect] does with the values of one render. *)
Inductive EffectResult :=
  | RedirectToAdmin          (* no game code: error, then navigate('/admin') *)
  | Waiting                  (* early return, nothing fetched *)
  | Aggregate (game : Game). (* processAndFetchData() is started *)

(** The synchronous part of the first [useEffect]: the state it leaves
    and whether it starts [processAndFetchData], whose first statement,
    [setLoading(true)], runs before the pass suspends on its fetches. *)
Definition revealEffect (gameCode : option string) (hook : HookState)
    (st : PageState) : PageState * EffectResult :=
  if negb (truthy_string gameCode)
  then (setError (Some "Missing game code. Redirecting...") st, RedirectToAdmin)
  else
    match gameLoading hook, gameError hook, gameData hook with
    | false, None, Some game =>
        if negb (isAnswerReveal (status game))
           || negb (bool_decide (resultsReady game = Some true))
        then (setLoading (isAnswerReveal (status game)) st, Waiting)
        else (setLoading true st, Aggregate game)
    | _, _, _ => (setLoading true st, Waiting)
    end.

(** The results of the three fetches of one pass. *)
Record Fetched := {
  allTeamsForGame : list Team;
  resultOf : string → option TeamAnswerResult;
  allScores : gmap string TeamScore
}.

(** How the fetches of a pass end: the first rejection with its message
    and what had been fetched before it, or all three results. *)
Inductive FetchOutcome :=
  | TeamsRejected (message : string)
  | AnswersRejected (message : string)
  | ScoresRejected (teams : list Team)
      (results : string → option TeamAnswerResult) (message : string)
  | FetchOk (fetched : Fetched).

(** The [catch] and [finally] blocks of [processAndFetchData]. *)
Definition processingError (message : string) (st : PageState) : PageState :=
  setLoading false
    (setError (Some ("Error processing data: " ++ message)%string) st).

Definition setQuestion (question : Question) (last : bool) (st : PageState)
  : PageState :=
  {| error := error st; loading := loading st;
     currentQuestion := Some question;
     teamAnswers := teamAnswers st; rankedTeams := rankedTeams st;
     isLastQuestion := last; isNavigating := isNavigating st |}.

Definition setTeamAnswers (rows : list TeamAnswerDisplay) (st : PageState)
  : PageState :=
  {| error := error st; loading := loading st;
     currentQuestion := currentQuestion st;
     teamAnswers := rows; rankedTeams := rankedTeams st;
     isLastQuestion := isLastQuestion st; isNavigating := isNavigating st |}.

Definition setRankedTeams (ranked : list RankedTeam) (st : PageState)
  : PageState :=
  {| error := error st; loading := loading st;
     currentQuestion := currentQuestion st;
     teamAnswers := teamAnswers st; rankedTeams := ranked;
     isLastQuestion := isLastQuestion st; isNavigating := isNavigating st |}.

Section Aggregator.
Variable localeCompare : string → string → Z.

(** [processAndFetchData]: the state after the pass has settled.  The
    index test reads [questionOrder.length] only when the index is not
    negative; the message of the [None] branch is the one that read
    raises on a missing [questionOrder]. *)
Definition processAndFetchData (game : Game) (outcome : FetchOutcome)
    (st : PageState) : PageState :=
  let st := setLoading true st in
  let index := currentQuestionIndex game in
  if index <? 0
  then processingError "Invalid current question index." st
  else
    match questionOrder game with
    | None =>
        processingError
          "Cannot read properties of undefined (reading 'length')" st
    | Some order =>
        if Z.of_nat (length order) <=? index
        then processingError "Invalid current question index." st
        else
          match
            List.find (λ q, bool_decide (Some (q_id q) = jsIndex order index))
                      (questions game)
          with
          | None =>
              processingError
                "Current question data not found in game state." st
          | Some questionData =>
              let st :=
                setQuestion questionData
                  (Z.of_nat (length order) - 1 <=? index) st in
              match outcome with
              | TeamsRejected message | AnswersRejected message =>
                  processingError message st
              | ScoresRejected teams results message =>
                  processingError message
                    (setTeamAnswers
                       (processedAnswers localeCompare (activeTeamsOf teams)
                                         results) st)
              | FetchOk f =>
                  let activeTeams := activeTeamsOf (allTeamsForGame f) in
                  setLoading false
                    (setError None
                       (setRankedTeams
                          (rankedTeamsData activeTeams (allScores f))
                          (setTeamAnswers
                             (processedAnswers localeCompare activeTeams
                                               (resultOf f)) st)))
              end
          end
    end.
End Aggregator.

(** [error || gameError?.message]. *)
Definition displayError (st : PageState) (hook : HookState) : option string :=
  if truthy_string (error st) then error st else gameError hook.

(** What the component returns. *)
Inductive View :=
  | ErrorPanel (message : option string)
  | LoadingIndicator
  | RevealBoard (game : Game) (question : Question)
  | NoContent.

Definition render (st : PageState) (hook : HookState) : View :=
  if truthy_string (displayError st hook)
  then ErrorPanel (displayError st hook)
  else if loading st || gameLoading hook then LoadingIndicator
  else
    match gameData hook, currentQuestion st with
    | Some game, Some question => RevealBoard game question
    | _, _ => NoContent
    end.

(** ** [handleNextStep]: the transition behind the advance button *)

Definition QUESTIONS_PER_CATEGORY : Z := 8.

(** [const updates: Partial<Game>]: the fields the handler assigns. *)
Record Updates := {
  u_status : option GameStatus;
  u_currentQuestionIndex : option Z;
  u_resultsReady : option bool
}.

(** What the handler has decided when it reaches [await updateGameData]. *)
Record NextStep := {
  updates : Updates;
  nextRoute : string;
  shouldNavigate : bool
}.

(** The three branches of the handler.  [%] is the remainder of the
    truncated division, [Z.rem]. *)
Definition planNextStep (gameCode : string) (currentQuestionIndex : Z)
    (totalQuestions : Z) : NextStep :=
  let nextQuestionIndex := currentQuestionIndex + 1 in
  let isEndOfGame := totalQuestions <=? nextQuestionIndex in
  let isBreakTime :=
    (0 <? nextQuestionIndex)
    && (Z.rem nextQuestionIndex QUESTIONS_PER_CATEGORY =? 0)
    && negb isEndOfGame in
  if isEndOfGame then
    {| updates := {| u_status := Some game_end;
                     u_currentQuestionIndex := None;
                     u_resultsReady := None |};
       nextRoute := ("/admin/winners?gameCode=" ++ gameCode)%string;
       shouldNavigate := true |}
  else if isBreakTime then
    {| updates := {| u_status := Some leaderboard;
                     u_currentQuestionIndex := None;
                     u_resultsReady := None |};
       nextRoute := ("/admin/break?gameCode=" ++ gameCode)%string;
       shouldNavigate := false |}
  else
    {| updates := {| u_status := Some question_display;
                     u_currentQuestionIndex := Some nextQuestionIndex;
                     u_resultsReady := Some false |};
       nextRoute := ("/admin/question?gameCode=" ++ gameCode)%string;
       shouldNavigate := true |}.

(** The handler up to [await updateGameData(gameCode, updates)]: [None]
    when the guard of its first line returns, otherwise the game code and
    the step whose update is issued, with [isNavigating] set. *)
Definition handleNextStep (gameCode : option string) (game : option Game)
    (st : PageState) : PageState * option (string * NextStep) :=
  match gameCode, game with
  | Some code, Some g =>
      match questionOrder g with
      | Some order =>
          if negb (truthy_string gameCode) || isNavigating st then (st, None)
          else
            (setIsNavigating true st,
             Some (code, planNextStep code (currentQuestionIndex g)
                           (Z.of_nat (length order))))
      | None => (st, None)
      end
  | _, _ => (st, None)
  end.

(** The handler after the update has resolved: the route it navigates
    to, or the release of the guard on the way to the break page. *)
Definition handleNextStep_resolved (next : NextStep) (st : PageState)
  : PageState * option string :=
  if shouldNavigate next then (st, Some (nextRoute next))
  else (setIsNavigating false st, None).

(** The [catch] block of the handler. *)
Definition handleNextStep_rejected (st : PageState) : PageState :=
  setIsNavigating false (setError (Some "Failed to update game state") st).

(** Modelled from the spec: [updateGameData] of [lib/firebase] is not
    part of the sources; it applies the given fields to the game record
    as one atomic partial update and leaves every other field as it is. *)
Definition applyUpdates (u : Updates) (g : Game) : Game :=
  {| status := nullish (u_status u) (status g);
     currentQuestionIndex :=
       nullish (u_currentQuestionIndex u) (currentQuestionIndex g);
     questionOrder := questionOrder g;
     questions := questions g;
     resultsReady :=
       match u_resultsReady u with
       | Some b => Some b
       | None => resultsReady g
       end |}.

(** The outcome of one press of the advance button on a snapshot: the
    updates handed to [updateGameData], one list entry per call. *)
Definition advanceUpdates (gameCode : option string) (game : option Game)
    (st : PageState) : list Updates :=
  match handleNextStep gameCode game st with
  | (_, Some (_, next)) => [updates next]
  | (_, None) => []
  end.

(** ** The page between events

    React runs every handler on the state committed by the handlers
    before it.  The mounted page is described by its state, the snapshot
    it currently holds, the calls to [updateGameData] it has made, those
    of them that have not settled yet, and the routes it has navigated
    to; [record] is the game record in the store. *)
Record World := {
  page : PageState;
  code : option string;
  snapshot : option Game;
  record : Game;
  pending : list NextStep;
  calls : list Updates;
  routes : list string
}.

Inductive Event :=
  | Click             (* the operator presses the advance button *)
  | UpdateResolved    (* the oldest pending update succeeds *)
  | UpdateRejected.   (* the oldest pending update fails *)

(** The effect of an event that occurs.  Whether it can occur at all,
    a press only while the advance button is on the page, is decided by
    [canOccur] below, not here. *)
Definition step (w : World) (e : Event) : World :=
  match e with
  | Click =>
      match handleNextStep (code w) (snapshot w) (page w) with
      | (st, Some (_, next)) =>
          {| page := st; code := code w; snapshot := snapshot w;
             record := record w; pending := pending w ++ [next];
             calls := calls w ++ [updates next]; routes := routes w |}
      | (st, None) =>
          {| page := st; code := code w; snapshot := snapshot w;
             record := record w; pending := pending w;
             calls := calls w; routes := routes w |}
      end
  | UpdateResolved =>
      match pending w with
      | [] => w
      | next :: rest =>
          let '(st, route) := handleNextStep_resolved next (page w) in
          {| page := st; code := code w; snapshot := snapshot w;
             record := applyUpdates (updates next) (record w);
             pending := rest; calls := calls w;
             routes := routes w ++ option_list route |}
      end
  | UpdateRejected =>
      match pending w with
      | [] => w
      | _ :: rest =>
          {| page := handleNextStep_rejected (page w); code := code w;
             snapshot := snapshot w; record := record w; pending := rest;
             calls := calls w; routes := routes w |}
      end
  end.

Definition run (w : World) (events : list Event) : World :=
  fold_left step events w.





(** The advance operation fires on a snapshot: the guard in the first
    line of [handleNextStep] lets the press through. *)
Definition advanceFires (gameCode : option string) (game : Game)
    (order : list string) (st : PageState) : Prop :=
  truthy_string gameCode = true
  ∧ questionOrder game = Some order
  ∧ isNavigating st = false.

Definition onlyStatus (s : GameStatus) : Updates :=
  {| u_status := Some s; u_currentQuestionIndex := None;
     u_resultsReady := None |}.

(** ** Vocabulary of the statements *)

(** A consistent comparator, as [Array.prototype.sort] requires of its
    argument: the sign flips when the arguments are swapped, and "not
    after" is transitive. *)
Definition consistentComparator {A} (compareFn : A → A → Z) : Prop :=
  (∀ a b, compareFn a b < 0 ↔ 0 < compareFn b a)
  ∧ (∀ a b c, compareFn a b ≤ 0 → compareFn b c ≤ 0 → compareFn a c ≤ 0).

(** A concrete consistent comparator on names: the lexicographic order of
    the character codes. *)
Definition ordinalCompare (a b : string) : Z :=
  match String_as_OT.compare a b with
  | Lt => -1
  | Eq => 0
  | Gt => 1
  end.

(** The three sort keys of an answer row: correct or not ([false] and
    [null] alike), the points with [null] read as 0, and the name. *)
Definition correctRow (a : TeamAnswerDisplay) : bool :=
  nullish (isCorrect a) false.

Definition pointsOf (a : TeamAnswerDisplay) : Z :=
  nullish (pointsAwarded a) 0.

(** Row [a] may stand before row [b] on the answer board: correct rows
    first, then more points first, then names in ascending order. *)
Definition answersInOrder (localeCompare : string → string → Z)
    (a b : TeamAnswerDisplay) : Prop :=
  (correctRow a = true ∧ correctRow b = false)
  ∨ (correctRow a = correctRow b ∧ pointsOf b < pointsOf a)
  ∨ (correctRow a = correctRow b ∧ pointsOf a = pointsOf b
     ∧ localeCompare (teamName a) (teamName b) ≤ 0).

(** Rows whose three keys are equal. *)
Definition sameKeys (localeCompare : string → string → Z)
    (a b : TeamAnswerDisplay) : Prop :=
  correctRow a = correctRow b ∧ pointsOf a = pointsOf b
  ∧ localeCompare (teamName a) (teamName b) = 0.

Global Instance sameKeys_dec localeCompare a b :
  Decision (sameKeys localeCompare a b).
Proof. unfold sameKeys. apply _. Defined.

(** An answer row with the given keys. *)
Definition answerRow (correct : option bool) (pts : Z) (name : string)
  : TeamAnswerDisplay :=
  {| teamId := name; teamName := name; selectedAnswer := None;
     isCorrect := correct; pointsAwarded := Some pts; answerIndex := None |}.

(** Ranks along a ranked list, each row against its predecessor: the
    rank never falls, never exceeds the 1-based position, and stays the
    same exactly when the points do. *)
Fixpoint rankedFrom (index : nat) (prevRank prevPoints : Z)
    (out : list RankedTeam) : Prop :=
  match out with
  | [] => True
  | r :: rest =>
      prevRank ≤ rank r ≤ Z.of_nat index + 1
      ∧ (rank r = prevRank ↔ points (rt_team r) = prevPoints)
      ∧ rankedFrom (S index) (rank r) (points (rt_team r)) rest
  end.

(** A 16-question order, and the snapshot of a game on it that reveals
    the answers of the question at [index]. *)
Definition sixteen : list string :=
  ["q01"; "q02"; "q03"; "q04"; "q05"; "q06"; "q07"; "q08";
   "q09"; "q10"; "q11"; "q12"; "q13"; "q14"; "q15"; "q16"].

Definition revealAt (index : Z) : Game :=
  {| status := answer_reveal; currentQuestionIndex := index;
     questionOrder := Some sixteen; questions := [];
     resultsReady := Some true |}.

(** ** The rest of the page and the QR-code page *)

(** [`${gameCode}`] for a game code read from [localStorage]. *)
Definition templateOf (gameCode : option string) : string :=
  match gameCode with
  | Some c => c
  | None => "null"
  end.

(** What the second [useEffect] does with the values of one render. *)
Inductive WatcherResult :=
  | WatcherIdle                     (* nothing happens *)
  | WatcherThrows                   (* [length] read on a missing order *)
  | ToBreakPage (route : string).   (* setIsNavigating(true); navigate *)

(** The second [useEffect]: the watcher that leaves for the break page
    once the status has become [leaderboard]. *)
Definition breakWatcher (gameCode : option string) (game : option Game)
    (st : PageState) : PageState * WatcherResult :=
  match game with
  | Some g =>
      if bool_decide (status g = leaderboard) && negb (isNavigating st)
      then
        match questionOrder g with
        | None => (st, WatcherThrows)
        | Some order =>
            let totalQuestions := Z.of_nat (length order) in
            let nextQuestionIndex := currentQuestionIndex g + 1 in
            let isEndOfGame := totalQuestions <=? nextQuestionIndex in
            let shouldBeBreakTime :=
              (0 <? nextQuestionIndex)
              && (Z.rem nextQuestionIndex QUESTIONS_PER_CATEGORY =? 0)
              && negb isEndOfGame in
            if shouldBeBreakTime
            then (setIsNavigating true st,
                  ToBreakPage
                    ("/admin/break?gameCode=" ++ templateOf gameCode)%string)
            else (st, WatcherIdle)
        end
      else (st, WatcherIdle)
  | None => (st, WatcherIdle)
  end.

(** The number of teams with strictly more than [p] points. *)
Definition teamsAbove (p : Z) (teams : list TeamWithScore) : nat :=
  length (filter (λ team, p < points team) teams).

(** The key under which [QRCodePage] keeps its game code. *)
Definition adminGameCodeKey : string := "adminGameCode".

(** The initialiser of [gameCode] in [QRCodePage], on [localStorage] as a
    map; [newGameCode] is the string the random generator yields,
    [Math.random().toString(36).substring(2, 8).toUpperCase()]. *)
Definition initGameCode (localStorage : gmap string string)
    (newGameCode : string) : string * gmap string string :=
  let generated :=
    (newGameCode, <[adminGameCodeKey := newGameCode]> localStorage) in
  match localStorage !! adminGameCodeKey with
  | Some storedGameCode =>
      if String.eqb storedGameCode "" then generated
      else (storedGameCode, localStorage)
  | None => generated
  end.

(** The [onValue] callback of [QRCodePage]: the new value of [teams] for
    a snapshot, [None] when [snapshot.exists()] is false, otherwise the
    values of [snapshot.val()]. *)
Definition onTeamsSnapshot (snapshot : option (list Team)) : list Team :=
  match snapshot with
  | Some teamsData => filter (λ team, isActiveTeam team = true) teamsData
  | None => []
  end.

(** The pass resolves the current question of [game] to [question]. *)
Definition resolvesQuestion (game : Game) (order : list string)
    (question : Question) : Prop :=
  questionOrder game = Some order
  ∧ 0 ≤ currentQuestionIndex game < Z.of_nat (length order)
  ∧ List.find (λ q, bool_decide (Some (q_id q)
                                 = jsIndex order (currentQuestionIndex game)))
              (questions game) = Some question.

(** The guard and the pending updates agree: nothing is pending, or one
    update is and the guard is up. *)
Definition guardHolds (w : World) : Prop :=
  pending w = []
  ∨ (∃ next, pending w = [next]) ∧ isNavigating (page w) = true.

(** A game with one question per identifier of [sixteen], revealing the
    answers of the question at [index]. *)
Definition quizQuestion (id : string) : Question :=
  {| q_id := id; q_text := "Pitanje"; q_category := "Geografija";
     q_options := Some ["Beograd"; "Zagreb"; "Skoplje"; "Sarajevo"];
     q_correctAnswerIndex := Some 0; q_correctAnswer := None |}.

Definition quizAt (index : Z) : Game :=
  {| status := answer_reveal; currentQuestionIndex := index;
     questionOrder := Some sixteen; questions := map quizQuestion sixteen;
     resultsReady := Some true |}.

(** * Properties *)

(** ** The stable sort *)

Section SortFacts.
Context {A : Type} (compareFn : A → A → Z).

Lemma sort_insert_Permutation x l : sort_insert compareFn x l ≡ₚ x :: l.
Proof.
  induction l as [|y l IH]; simpl; [done|].
  destruct (compareFn x y <=? 0); [done|].
  rewrite IH. apply Permutation_swap.
Qed.

Lemma sort_Permutation l : sort compareFn l ≡ₚ l.
Proof.
  induction l as [|x l IH]; simpl; [done|].
  by rewrite sort_insert_Permutation, IH.
Qed.

Hypothesis consistent : consistentComparator compareFn.

Lemma comparator_total a b : ¬ compareFn a b ≤ 0 → compareFn b a ≤ 0.
Proof.
  destruct consistent as [flip _]. intros Hgt.
  assert (compareFn b a < 0) by (apply flip; lia). lia.
Qed.

Lemma comparator_tie_sym a b : compareFn a b = 0 → compareFn b a = 0.
Proof.
  destruct consistent as [flip _]. intros Hab.
  destruct (Z.lt_trichotomy (compareFn b a) 0) as [Hlt|[Heq|Hgt]]; [|done|].
  - apply flip in Hlt. lia.
  - apply flip in Hgt. lia.
Qed.

Lemma sort_insert_sorted x l :
  StronglySorted (λ a b, compareFn a b ≤ 0) l →
  StronglySorted (λ a b, compareFn a b ≤ 0) (sort_insert compareFn x l).
Proof.
  destruct consistent as [_ trans].
  induction 1 as [|y l Hsorted IH Hall]; simpl.
  - repeat constructor.
  - destruct (Z.leb_spec (compareFn x y) 0) as [Hle|Hgt].
    + constructor; [by constructor|].
      constructor; [done|].
      eapply Forall_impl; [exact Hall|]. intros z Hyz. by eapply trans.
    + constructor; [done|].
      rewrite sort_insert_Permutation. constructor; [|done].
      apply comparator_total. lia.
Qed.

Lemma sort_sorted l :
  StronglySorted (λ a b, compareFn a b ≤ 0) (sort compareFn l).
Proof.
  induction l as [|x l IH]; simpl; [constructor|].
  by apply sort_insert_sorted.
Qed.

(** Stability: the elements tied with [x] leave the sort in the order
    in which they entered it. *)
Lemma sort_insert_stable x a l :
  filter (λ y, compareFn x y = 0) (sort_insert compareFn a l)
  = filter (λ y, compareFn x y = 0) (a :: l).
Proof.
  destruct consistent as [_ trans].
  induction l as [|y l IH]; simpl; [done|].
  destruct (Z.leb_spec (compareFn a y) 0) as [Hle|Hgt]; [done|].
  rewrite (filter_cons _ y (sort_insert _ _ _)), IH.
  rewrite !filter_cons.
  destruct (decide (compareFn x a = 0)) as [Hxa|Hxa];
    destruct (decide (compareFn x y = 0)) as [Hxy|Hxy]; try done.
  exfalso. apply comparator_tie_sym in Hxa.
  assert (compareFn a y ≤ 0) by (apply (trans a x y); lia). lia.
Qed.

Lemma sort_stable x l :
  filter (λ y, compareFn x y = 0) (sort compareFn l)
  = filter (λ y, compareFn x y = 0) l.
Proof.
  induction l as [|a l IH]; simpl; [done|].
  by rewrite sort_insert_stable, !filter_cons, IH.
Qed.
Lemma sort_sorted_id l :
  StronglySorted (λ a b, compareFn a b ≤ 0) l → sort compareFn l = l.
Proof.
  induction 1 as [|x l Hsorted IH Hall]; simpl; [done|].
  rewrite IH. destruct l as [|y l]; [done|]. simpl.
  apply Forall_cons in Hall as [Hxy _].
  by destruct (Z.leb_spec (compareFn x y) 0); [|lia].
Qed.

Lemma comparator_tie a b :
  compareFn a b ≤ 0 → compareFn b a ≤ 0 → compareFn a b = 0.
Proof.
  destruct consistent as [flip _]. intros Hab Hba.
  destruct (Z.lt_trichotomy (compareFn a b) 0) as [Hlt|[Heq|Hgt]];
    [|done|lia].
  apply flip in Hlt. lia.
Qed.

Lemma comparator_refl a : compareFn a a = 0.
Proof.
  destruct consistent as [flip _].
  destruct (Z.lt_trichotomy (compareFn a a) 0) as [Hlt|[Heq|Hgt]]; [|done|].
  - pose proof Hlt as Hlt'. apply flip in Hlt'. lia.
  - pose proof Hgt as Hgt'. apply flip in Hgt'. lia.
Qed.

(** There is one sorted and stable arrangement of a list, so every
    stable sorting procedure returns what [sort] returns. *)
Lemma stable_sorted_unique l1 : ∀ l2,
  l1 ≡ₚ l2 →
  StronglySorted (λ a b, compareFn a b ≤ 0) l1 →
  StronglySorted (λ a b, compareFn a b ≤ 0) l2 →
  (∀ x, filter (λ y, compareFn x y = 0) l1
        = filter (λ y, compareFn x y = 0) l2) →
  l1 = l2.
Proof.
  induction l1 as [|a l1 IH]; intros l2 Hperm Hs1 Hs2 Hstable.
  - by apply Permutation_nil in Hperm.
  - destruct l2 as [|b l2].
    { symmetry in Hperm. by apply Permutation_nil_cons in Hperm. }
    apply StronglySorted_inv in Hs1 as [Hs1 Hall1].
    apply StronglySorted_inv in Hs2 as [Hs2 Hall2].
    rewrite Forall_forall in Hall1, Hall2.
    pose proof (comparator_refl a) as Haa.
    assert (Hab : compareFn a b = 0).
    { apply comparator_tie.
      - assert (Hb : b ∈ a :: l1) by (rewrite Hperm; left).
        apply elem_of_cons in Hb as [->|Hb]; [lia|by apply Hall1].
      - assert (Ha : a ∈ b :: l2) by (rewrite <- Hperm; left).
        apply elem_of_cons in Ha as [->|Ha]; [lia|by apply Hall2]. }
    assert (Heq : a = b).
    { specialize (Hstable a). rewrite !filter_cons in Hstable.
      destruct (decide (compareFn a a = 0)); [|done].
      destruct (decide (compareFn a b = 0)); [|done].
      congruence. }
    subst b. f_equal. apply IH; [|done|done|].
    + by apply Permutation_cons_inv in Hperm.
    + intros x. specialize (Hstable x). rewrite !filter_cons in Hstable.
      destruct (decide (compareFn x a = 0)); congruence.
Qed.

Lemma sort_unique l l' :
  l' ≡ₚ l →
  StronglySorted (λ a b, compareFn a b ≤ 0) l' →
  (∀ x, filter (λ y, compareFn x y = 0) l'
        = filter (λ y, compareFn x y = 0) l) →
  l' = sort compareFn l.
Proof.
  intros Hperm Hsorted Hstable. apply stable_sorted_unique.
  - by rewrite sort_Permutation.
  - done.
  - apply sort_sorted.
  - intros x. by rewrite sort_stable.
Qed.
End SortFacts.

Lemma StronglySorted_impl {A} (R1 R2 : A → A → Prop) (l : list A) :
  (∀ a b, R1 a b → R2 a b) → StronglySorted R1 l → StronglySorted R2 l.
Proof.
  intros Himpl. induction 1 as [|x l _ IH Hall]; constructor; [exact IH|].
  eapply Forall_impl; [exact Hall|]. intros y. apply Himpl.
Qed.

Lemma StronglySorted_lookup {A} (R : A → A → Prop) (l : list A) i j a b :
  StronglySorted R l → (i < j)%nat → l !! i = Some a → l !! j = Some b → R a b.
Proof.
  intros Hsorted. revert i j.
  induction Hsorted as [|x l Hsorted IH Hall]; intros i j Hij Ha Hb; [done|].
  destruct j as [|j]; [lia|]. destruct i as [|i]; simpl in *.
  - injection Ha as <-. rewrite Forall_forall in Hall.
    apply Hall. by eapply list_elem_of_lookup_2.
  - apply (IH i j); [lia|done..].
Qed.

Lemma map_fmap {A B} (f : A → B) (l : list A) : map f l = f <$> l.
Proof. reflexivity. Qed.

(** ** The answer board *)

Lemma processedAnswers_Permutation localeCompare activeTeams resultOf :
  processedAnswers localeCompare activeTeams resultOf
  ≡ₚ (λ team, processAnswer team (resultOf (t_id team))) <$> activeTeams.
Proof. unfold processedAnswers. by rewrite sort_Permutation, map_fmap. Qed.

(** C7: a team without a result for the current question is shown with
    [isCorrect = null], 0 points, answer index -1 and the unanswered
    text; a team with a result is shown with the result's answer,
    correctness, points and index unchanged.  The board consists of
    exactly these rows, one for every active team. *)
Theorem answer_rows_normalised (localeCompare : string → string → Z)
    (activeTeams : list Team) (resultOf : string → option TeamAnswerResult)
    (team : Team) :
  team ∈ activeTeams →
  let board := processedAnswers localeCompare activeTeams resultOf in
  (resultOf (t_id team) = None →
     ∃ row, row ∈ board ∧ row = processAnswer team None
       ∧ teamId row = t_id team
       ∧ isCorrect row = None ∧ pointsAwarded row = Some 0
       ∧ answerIndex row = Some (-1)
       ∧ selectedAnswer row = Some unansweredText)
  ∧ (∀ result, resultOf (t_id team) = Some result →
     ∃ row, row ∈ board ∧ row = processAnswer team (Some result)
       ∧ teamId row = t_id team
       ∧ selectedAnswer row = r_selectedAnswer result
       ∧ isCorrect row = r_isCorrect result
       ∧ pointsAwarded row = r_pointsAwarded result
       ∧ answerIndex row = r_answerIndex result)
  ∧ (∀ row, row ∈ board →
     ∃ team', team' ∈ activeTeams
       ∧ row = processAnswer team' (resultOf (t_id team')))
  ∧ length board = length activeTeams.
Proof.
  intros Hin board.
  assert (Hrow : processAnswer team (resultOf (t_id team)) ∈ board).
  { unfold board. rewrite processedAnswers_Permutation.
    by apply (list_elem_of_fmap_2
                (λ team, processAnswer team (resultOf (t_id team)))). }
  split; [|split; [|split]].
  - intros Hnone. rewrite Hnone in Hrow. by eexists.
  - intros result Hsome. rewrite Hsome in Hrow. by eexists.
  - intros row. unfold board. rewrite processedAnswers_Permutation.
    intros (team' & -> & Hin')%list_elem_of_fmap. by exists team'.
  - unfold board. by rewrite processedAnswers_Permutation, length_fmap.
Qed.

Lemma answer_rows_normalised_witness :
  let team := {| t_id := "t1"; t_name := Some "Lavovi"; t_mascotId := 1;
                 t_isActive := None |} in
  team ∈ [team]
  ∧ ∃ row, row ∈ processedAnswers ordinalCompare [team] (λ _, None)
      ∧ isCorrect row = None ∧ pointsAwarded row = Some 0
      ∧ answerIndex row = Some (-1)
      ∧ selectedAnswer row = Some unansweredText.
Proof.
  intros team.
  assert (Hin : team ∈ [team]) by apply list_elem_of_here.
  split; [exact Hin|].
  destruct (answer_rows_normalised ordinalCompare [team] (λ _, None) team Hin)
    as [Hnone _].
  destruct (Hnone eq_refl) as (row & Hrow & _ & _ & H).
  exists row. split; [exact Hrow | exact H].
Defined.

Section AnswerBoardFacts.
Variable localeCompare : string → string → Z.

Lemma compareAnswers_le a b :
  compareAnswers localeCompare a b ≤ 0 ↔ answersInOrder localeCompare a b.
Proof.
  unfold compareAnswers, answersInOrder, correctRow, pointsOf.
  destruct (nullish (isCorrect a) false), (nullish (isCorrect b) false);
    simpl;
    try (destruct (Z.eqb_spec (nullish (pointsAwarded a) 0)
                              (nullish (pointsAwarded b) 0)); simpl);
    split; intros H; try lia; try (intuition (congruence || lia)).
Qed.

Lemma compareAnswers_tie a b :
  compareAnswers localeCompare a b = 0 ↔ sameKeys localeCompare a b.
Proof.
  unfold compareAnswers, sameKeys, correctRow, pointsOf.
  destruct (nullish (isCorrect a) false), (nullish (isCorrect b) false);
    simpl;
    try (destruct (Z.eqb_spec (nullish (pointsAwarded a) 0)
                              (nullish (pointsAwarded b) 0)); simpl);
    split; intros H; try lia; try (intuition (congruence || lia)).
Qed.

Hypothesis consistent : consistentComparator localeCompare.

Lemma compareAnswers_consistent :
  consistentComparator (compareAnswers localeCompare).
Proof.
  destruct consistent as [flip trans]. split.
  - intros a b. unfold compareAnswers.
    destruct (nullish (isCorrect a) false), (nullish (isCorrect b) false);
      simpl; try lia;
      destruct (Z.eqb_spec (nullish (pointsAwarded a) 0)
                           (nullish (pointsAwarded b) 0)) as [Heq|Hne];
      destruct (Z.eqb_spec (nullish (pointsAwarded b) 0)
                           (nullish (pointsAwarded a) 0));
      simpl; try lia; apply flip.
  - intros a b c. rewrite !compareAnswers_le. unfold answersInOrder.
    specialize (trans (teamName a) (teamName b) (teamName c)).
    destruct (correctRow a), (correctRow b), (correctRow c);
      intuition (congruence || lia).
Qed.
End AnswerBoardFacts.

Lemma ordinalCompare_consistent : consistentComparator ordinalCompare.
Proof.
  assert (irrefl : ∀ a, ¬ String_as_OT.lt a a)
    by apply (StrictOrder_Irreflexive (R := String_as_OT.lt)).
  assert (lt_trans : ∀ a b c, String_as_OT.lt a b → String_as_OT.lt b c →
                              String_as_OT.lt a c)
    by apply (StrictOrder_Transitive (R := String_as_OT.lt)).
  split.
  - intros a b. unfold ordinalCompare.
    destruct (String_as_OT.compare_spec a b) as [Hab|Hab|Hab];
      destruct (String_as_OT.compare_spec b a) as [Hba|Hba|Hba];
      unfold String_as_OT.eq in *; split; intros H; try lia; subst;
      exfalso; eapply irrefl; eauto.
  - intros a b c. unfold ordinalCompare.
    destruct (String_as_OT.compare_spec a b) as [Hab|Hab|Hab];
      destruct (String_as_OT.compare_spec b c) as [Hbc|Hbc|Hbc];
      destruct (String_as_OT.compare_spec a c) as [Hac|Hac|Hac];
      unfold String_as_OT.eq in *; intros H1 H2; try lia; subst;
      exfalso; eapply irrefl; eauto.
Qed.

(** C6: the answer-board sort keeps exactly the rows it is given, puts
    every correct row before every row that is incorrect or unanswered,
    orders rows of equal correctness by descending points ([null] read
    as 0) and rows of equal points by ascending [localeCompare] of the
    names, and leaves rows with equal keys in their input order; no
    other arrangement of the rows is ordered and stable in this way.  With
    ["A"] before ["B"] and ["C"] before ["D"] in the locale, the rows
    (true,10,B), (true,10,A), (false,0,C), (null,0,D) come out as
    A, B, C, D. *)
Theorem answer_board_sorted (localeCompare : string → string → Z)
    (rows : list TeamAnswerDisplay) :
  consistentComparator localeCompare →
  localeCompare "A" "B" < 0 →
  localeCompare "C" "D" < 0 →
  let board := sort (compareAnswers localeCompare) rows in
  board ≡ₚ rows
  ∧ (∀ i j a b, (i < j)%nat → board !! i = Some a → board !! j = Some b →
       answersInOrder localeCompare a b
       ∧ (isCorrect b = Some true → isCorrect a = Some true)
       ∧ (correctRow a = correctRow b → pointsOf b ≤ pointsOf a)
       ∧ (correctRow a = correctRow b → pointsOf a = pointsOf b →
          localeCompare (teamName a) (teamName b) ≤ 0))
  ∧ (∀ x, filter (sameKeys localeCompare x) board
          = filter (sameKeys localeCompare x) rows)
  ∧ (∀ board', board' ≡ₚ rows →
       StronglySorted (answersInOrder localeCompare) board' →
       (∀ x, filter (sameKeys localeCompare x) board'
             = filter (sameKeys localeCompare x) rows) →
       board' = board)
  ∧ teamName <$> sort (compareAnswers localeCompare)
        [answerRow (Some true) 10 "B"; answerRow (Some true) 10 "A";
         answerRow (Some false) 0 "C"; answerRow None 0 "D"]
    = ["A"; "B"; "C"; "D"].
Proof.
  intros consistent HAB HCD board.
  pose proof (compareAnswers_consistent _ consistent) as Hcmp.
  split; [apply sort_Permutation|]. split; [|split; [|split]].
  - intros i j a b Hij Ha Hb.
    assert (Hord : answersInOrder localeCompare a b).
    { apply compareAnswers_le.
      exact (StronglySorted_lookup _ _ i j a b
               (sort_sorted _ Hcmp rows) Hij Ha Hb). }
    split; [exact Hord|].
    unfold answersInOrder, correctRow, pointsOf in *.
    destruct (isCorrect a) as [[]|], (isCorrect b) as [[]|]; simpl in *;
      intuition (congruence || lia).
  - intros x. unfold board.
    rewrite (list_filter_iff (sameKeys localeCompare x)
               (λ y, compareAnswers localeCompare x y = 0));
      [|intros y; symmetry; apply compareAnswers_tie].
    rewrite (sort_stable _ Hcmp).
    apply list_filter_iff. intros y. apply compareAnswers_tie.
  - intros board' Hperm Hsorted Hstable.
    apply (sort_unique _ Hcmp); [done| |].
    + eapply StronglySorted_impl; [|exact Hsorted].
      intros a b. apply compareAnswers_le.
    + intros x.
      rewrite <- !(list_filter_iff (sameKeys localeCompare x)
                     (λ y, compareAnswers localeCompare x y = 0))
        by (intros y; symmetry; apply compareAnswers_tie).
      apply Hstable.
  - destruct consistent as [flip _].
    assert (HBA : (localeCompare "B" "A" <=? 0) = false)
      by (apply Z.leb_gt, flip, HAB).
    assert (HCD' : (localeCompare "C" "D" <=? 0) = true)
      by (apply Z.leb_le; lia).
    cbn. rewrite HCD'. cbn. rewrite HBA. reflexivity.
Qed.

Lemma answer_board_sorted_witness :
  let rows := [answerRow (Some true) 10 "B"; answerRow (Some true) 10 "A";
               answerRow (Some false) 0 "C"; answerRow None 0 "D"] in
  consistentComparator ordinalCompare
  ∧ ordinalCompare "A" "B" < 0
  ∧ ordinalCompare "C" "D" < 0
  ∧ sort (compareAnswers ordinalCompare) rows ≡ₚ rows
  ∧ teamName <$> sort (compareAnswers ordinalCompare) rows
    = ["A"; "B"; "C"; "D"].
Proof.
  intros rows.
  assert (HAB : ordinalCompare "A" "B" < 0) by reflexivity.
  assert (HCD : ordinalCompare "C" "D" < 0) by reflexivity.
  destruct (answer_board_sorted ordinalCompare rows
              ordinalCompare_consistent HAB HCD)
    as (Hperm & _ & _ & _ & Hex).
  split; [exact ordinalCompare_consistent|].
  split; [exact HAB|]. split; [exact HCD|].
  split; [exact Hperm | exact Hex].
Defined.

(** ** The leaderboard ranking *)

Lemma comparePoints_consistent : consistentComparator comparePoints.
Proof. unfold comparePoints. split; intros; lia. Qed.

Lemma comparePoints_le a b : comparePoints a b ≤ 0 ↔ scoreGe a b.
Proof. unfold comparePoints, scoreGe. lia. Qed.

Lemma sortByPoints_sorted teams : StronglySorted scoreGe (sortByPoints teams).
Proof.
  eapply StronglySorted_impl; [|apply (sort_sorted _ comparePoints_consistent)].
  intros a b. apply comparePoints_le.
Qed.

(** Sorting a list that is already in descending order changes nothing. *)
Lemma sortByPoints_sorted_id teams :
  StronglySorted scoreGe teams → sortByPoints teams = teams.
Proof.
  intros Hsorted. apply sort_sorted_id.
  eapply StronglySorted_impl; [|exact Hsorted].
  intros a b. apply comparePoints_le.
Qed.

Global Instance scoreGe_trans : Transitive scoreGe.
Proof. unfold scoreGe. intros a b c. lia. Qed.

Lemma rankLoop_teams index currentRank previousPoints teams :
  rt_team <$> rankLoop index currentRank previousPoints teams = teams.
Proof.
  revert index currentRank previousPoints.
  induction teams as [|team rest IH]; intros; simpl; [done|].
  f_equal. apply IH.
Qed.

Lemma rankTeams_teams teams : rt_team <$> rankTeams teams = teams.
Proof. destruct teams; [done|]. apply rankLoop_teams. Qed.

(** On a descending list the loop's test [points < previousPoints] fails
    exactly when the points equal [previousPoints]. *)
Lemma rankLoop_rule teams : ∀ index currentRank previousPoints,
  (0 < index)%nat →
  StronglySorted scoreGe teams →
  Forall (λ team, points team ≤ previousPoints) teams →
  rankLoop index currentRank previousPoints teams
  = ruleLoop index currentRank previousPoints teams.
Proof.
  induction teams as [|team rest IH]; intros index cr pp Hidx Hsorted Hall;
    simpl; [done|].
  apply StronglySorted_inv in Hsorted as [Hrest Hge].
  apply Forall_cons in Hall as [Hle _].
  destruct (0 <? index)%nat eqn:Hpos; [|apply Nat.ltb_ge in Hpos; lia].
  simpl.
  destruct (Z.ltb_spec (points team) pp), (Z.eqb_spec (points team) pp);
    try lia; f_equal; apply IH; try lia; try done.
  eapply Forall_impl; [exact Hge|]. intros t Ht. unfold scoreGe in Ht. lia.
Qed.

Lemma rankLoop_rankedFrom teams : ∀ index currentRank previousPoints,
  (0 < index)%nat →
  currentRank ≤ Z.of_nat index →
  StronglySorted scoreGe teams →
  Forall (λ team, points team ≤ previousPoints) teams →
  rankedFrom index currentRank previousPoints
    (rankLoop index currentRank previousPoints teams).
Proof.
  induction teams as [|team rest IH]; intros index cr pp Hidx Hcr Hsorted Hall;
    simpl; [done|].
  apply StronglySorted_inv in Hsorted as [Hrest Hge].
  apply Forall_cons in Hall as [Hle _].
  destruct (0 <? index)%nat eqn:Hpos; [|apply Nat.ltb_ge in Hpos; lia].
  simpl.
  destruct (Z.ltb_spec (points team) pp).
  - split; [lia|]. split; [lia|]. apply IH; try lia; try done.
  - assert (pp = points team) as -> by lia.
    split; [lia|]. split; [done|].
    apply IH; try lia; try done.
Qed.

Lemma rankTeams_rankedFrom teams :
  StronglySorted scoreGe teams →
  ∃ p, rankedFrom 0 1 p (rankTeams teams).
Proof.
  intros Hsorted. destruct teams as [|first rest]; [by exists 0|].
  exists (points first). simpl.
  split; [lia|]. split; [done|].
  apply StronglySorted_inv in Hsorted as [Hrest Hge].
  apply rankLoop_rankedFrom; [lia|lia|done|].
  eapply Forall_impl; [exact Hge|]. intros t Ht. exact Ht.
Qed.

Lemma rankedFrom_bounds out : ∀ index prevRank prevPoints i r,
  rankedFrom index prevRank prevPoints out →
  out !! i = Some r →
  prevRank ≤ rank r ≤ Z.of_nat (index + i) + 1.
Proof.
  induction out as [|r0 out IH]; intros index pr pp i r Hranked Hi; [done|].
  destruct Hranked as (Hb & _ & Hrest). destruct i as [|i]; simpl in Hi.
  - injection Hi as <-. lia.
  - specialize (IH _ _ _ _ _ Hrest Hi). lia.
Qed.

Lemma rankedFrom_adjacent out : ∀ index prevRank prevPoints i a b,
  rankedFrom index prevRank prevPoints out →
  out !! i = Some a → out !! S i = Some b →
  rank a ≤ rank b
  ∧ (rank a = rank b ↔ points (rt_team a) = points (rt_team b)).
Proof.
  induction out as [|r0 out IH]; intros index pr pp i a b Hranked Ha Hb;
    [done|].
  destruct Hranked as (_ & _ & Hrest). destruct i as [|i]; simpl in Ha, Hb.
  - injection Ha as <-. destruct out as [|r1 out]; [done|].
    injection Hb as <-. destruct Hrest as (Hb1 & Hiff & _).
    split; [lia|]. split; intros H.
    + symmetry. apply Hiff. lia.
    + symmetry. apply Hiff. lia.
  - by apply (IH _ _ _ _ _ _ Hrest Ha).
Qed.

(** C1: on a non-empty list of teams in descending order of score the
    ranking gives the first team rank 1 and treats every later team by
    the rule: same rank when its score equals the last-seen distinct
    score, otherwise its 1-based position as rank, with the last-seen
    distinct score updated.  Scores [50, 50, 30, 30, 30, 10] get the
    ranks [1, 1, 3, 3, 3, 6] and not [1, 1, 2, 2, 2, 3]. *)
Theorem ranking_follows_rule (teams : list TeamWithScore) :
  teams ≠ [] →
  Sorted scoreGe teams →
  head (rank <$> rankTeams (sortByPoints teams)) = Some 1
  ∧ rankTeams (sortByPoints teams) = rankByRule teams
  ∧ rank <$> rankTeams (sortByPoints
                          (teamsOfScores [50; 50; 30; 30; 30; 10]))
    = [1; 1; 3; 3; 3; 6]
  ∧ rank <$> rankTeams (sortByPoints
                          (teamsOfScores [50; 50; 30; 30; 30; 10]))
    ≠ [1; 1; 2; 2; 2; 3].
Proof.
  intros Hne Hsorted.
  apply (Sorted_StronglySorted scoreGe) in Hsorted.
  rewrite (sortByPoints_sorted_id _ Hsorted).
  destruct teams as [|first rest]; [done|].
  apply StronglySorted_inv in Hsorted as [Hrest Hge].
  split; [done|]. split; [|split; [reflexivity|discriminate]].
  simpl. f_equal.
  apply rankLoop_rule; [lia|done|].
  eapply Forall_impl; [exact Hge|]. intros t Ht. exact Ht.
Qed.

Lemma ranking_follows_rule_witness :
  let teams := teamsOfScores [50; 50; 30; 30; 30; 10] in
  teams ≠ [] ∧ Sorted scoreGe teams
  ∧ head (rank <$> rankTeams (sortByPoints teams)) = Some 1
  ∧ rankTeams (sortByPoints teams) = rankByRule teams.
Proof.
  intros teams.
  assert (Hne : teams ≠ []) by discriminate.
  assert (Hsorted : Sorted scoreGe teams).
  { unfold teams, teamsOfScores, scoreGe. simpl.
    repeat (constructor; simpl; try lia). }
  destruct (ranking_follows_rule teams Hne Hsorted) as (Hhead & Hrule & _).
  split; [exact Hne|]. split; [exact Hsorted|].
  split; [exact Hhead | exact Hrule].
Defined.

Lemma scoreOf_lookup (allScores : gmap string TeamScore) id :
  scoreOf allScores id = from_option totalScore 0 (allScores !! id).
Proof.
  unfold scoreOf. destruct (allScores !! id) as [s|]; simpl; [|done].
  destruct (Z.eqb_spec (totalScore s) 0); congruence.
Qed.

(** C10: the ranking of the active teams with the fetched scores puts
    out exactly the input teams, each with its fetched total (0 without a
    score entry), in order of non-increasing points; the first team has
    rank 1, no rank exceeds the 1-based position, ranks never fall along
    the list, and neighbours share a rank exactly when they share their
    points. *)
Theorem ranking_invariants (activeTeams : list Team)
    (allScores : gmap string TeamScore) :
  let out := rankedTeamsData activeTeams allScores in
  rt_team <$> out
    ≡ₚ (λ team, {| ws_team := team;
                   points := from_option totalScore 0
                               (allScores !! t_id team) |}) <$> activeTeams
  ∧ (λ r, ws_team (rt_team r)) <$> out ≡ₚ activeTeams
  ∧ StronglySorted (λ a b, points (rt_team b) ≤ points (rt_team a)) out
  ∧ (∀ r, out !! 0%nat = Some r → rank r = 1)
  ∧ (∀ i r, out !! i = Some r → 1 ≤ rank r ≤ Z.of_nat i + 1)
  ∧ (∀ i a b, out !! i = Some a → out !! S i = Some b →
       rank a ≤ rank b
       ∧ (rank a = rank b ↔ points (rt_team a) = points (rt_team b))).
Proof.
  intros out.
  pose proof (sortByPoints_sorted (teamsWithScores activeTeams allScores))
    as Hsorted.
  assert (Hteams : rt_team <$> out
                   = sortByPoints (teamsWithScores activeTeams allScores))
    by apply rankTeams_teams.
  assert (Hperm : rt_team <$> out
                  ≡ₚ (λ team, {| ws_team := team;
                                 points := from_option totalScore 0
                                             (allScores !! t_id team) |})
                     <$> activeTeams).
  { rewrite Hteams. unfold sortByPoints. rewrite sort_Permutation.
    unfold teamsWithScores. rewrite map_fmap.
    erewrite list_fmap_ext; [reflexivity|].
    intros i team _. simpl. by rewrite scoreOf_lookup. }
  destruct (rankTeams_rankedFrom _ Hsorted) as [p Hranked].
  fold (rankedTeamsData activeTeams allScores) in Hranked. fold out in Hranked.
  split; [exact Hperm|]. split; [|split; [|split; [|split]]].
  - assert (Hsplit : (λ r, ws_team (rt_team r)) <$> out
                     = ws_team <$> (rt_team <$> out))
      by (by rewrite <- list_fmap_compose).
    rewrite Hsplit, Hperm, <- list_fmap_compose.
    assert (Hid : ∀ l : list Team,
               (ws_team ∘ (λ team, {| ws_team := team;
                                      points := from_option totalScore 0
                                                  (allScores !! t_id team) |}))
                 <$> l = l).
    { induction l as [|team l IH]; [done|]. rewrite fmap_cons, IH. done. }
    by rewrite Hid.
  - rewrite <- Hteams in Hsorted.
    clear -Hsorted. induction out as [|r out IH]; [constructor|].
    rewrite fmap_cons in Hsorted.
    apply StronglySorted_inv in Hsorted as [Hrest Hge].
    constructor; [by apply IH|].
    rewrite Forall_fmap in Hge.
    eapply Forall_impl; [exact Hge|]. intros y Hy. exact Hy.
  - intros r Hr.
    pose proof (rankedFrom_bounds _ _ _ _ _ _ Hranked Hr). lia.
  - intros i r Hr.
    pose proof (rankedFrom_bounds _ _ _ _ _ _ Hranked Hr). lia.
  - intros i a b Ha Hb. exact (rankedFrom_adjacent _ _ _ _ _ _ _ Hranked Ha Hb).
Qed.

(** ** The correct-answer text *)

(** Where [options[correctAnswerIndex]] exists, or is not attempted, the
    text on the page is the one the rule of the specification gives. *)
Lemma derivedCorrectAnswerText_rule (q : Question) :
  (∀ options i, q_options q = Some options → q_correctAnswerIndex q = Some i →
     i < Z.of_nat (length options)) →
  derivedCorrectAnswerText (Some q) = Some (correctAnswerTextByRule q).
Proof.
  intros Hrange. unfold derivedCorrectAnswerText, correctAnswerTextByRule.
  destruct (String.eqb (q_category q) freeTextCategory); [done|].
  assert (Hfallback :
    (if truthy_string (q_correctAnswer q) then q_correctAnswer q
     else Some "N/A") = Some (or_string (q_correctAnswer q) "N/A")).
  { unfold truthy_string, or_string.
    destruct (q_correctAnswer q) as [s|]; [|done].
    by destruct (String.eqb s ""). }
  destruct (q_options q) as [options|]; [|exact Hfallback].
  destruct (q_correctAnswerIndex q) as [i|]; [|exact Hfallback].
  specialize (Hrange options i eq_refl eq_refl).
  unfold jsIndex. destruct (Z.leb_spec 0 i) as [Hpos|Hneg].
  - destruct (Z.ltb_spec i 0); [lia|].
    destruct (options !! Z.to_nat i) eqn:Hlookup; [done|].
    apply lookup_ge_None in Hlookup. lia.
  - destruct (Z.ltb_spec i 0); [|lia]. exact Hfallback.
Qed.

(** C8: for a question outside the free-text category whose
    [correctAnswerIndex] lies beyond its [options], the page computes no
    text at all, although [correctAnswer] is present and the rule falls
    back to it. *)
Theorem correct_answer_text_beyond_options :
  let q := {| q_id := "q7"; q_text := "Glavni grad Srbije?";
              q_category := "Geografija";
              q_options := Some ["Beograd"; "Zagreb"];
              q_correctAnswerIndex := Some 2;
              q_correctAnswer := Some "Beograd" |} in
  derivedCorrectAnswerText (Some q) = None
  ∧ correctAnswerTextByRule q = "Beograd".
Proof. split; reflexivity. Qed.

(** ** The reveal gate *)

(** C5, as stated: whenever the status is not [answer_reveal] or the
    results are not ready, the pass does not run and the page shows the
    loading indicator.  A delivered snapshot in status
    [question_display] refutes the second half. *)
Lemma reveal_gate_always_loading_fails :
  ¬ (∀ (gameCode : option string) (game : Game) (st : PageState),
       truthy_string gameCode = true →
       status game ≠ answer_reveal ∨ resultsReady game ≠ Some true →
       snd (revealEffect gameCode (delivered game) st) = Waiting
       ∧ render (fst (revealEffect gameCode (delivered game) st))
                (delivered game) = LoadingIndicator).
Proof.
  intros H.
  destruct (H (Some "ABC123")
              {| status := question_display; currentQuestionIndex := 3;
                 questionOrder := Some ["q1"; "q2"; "q3"; "q4"];
                 questions := []; resultsReady := Some false |}
              initialPage eq_refl) as [_ Hview].
  - left. discriminate.
  - discriminate Hview.
Qed.

(** C5, amended: on a delivered snapshot the pass starts exactly when
    the status is [answer_reveal] and the results are ready.  Otherwise
    nothing is fetched and the displayed rows stay as they are; the
    loading flag becomes true when the status is [answer_reveal], so the
    loading indicator is shown unless an error is on display, and false
    for every other status, for which no loading indicator is shown. *)
Theorem reveal_gate (gameCode : option string) (game : Game)
    (st : PageState) :
  truthy_string gameCode = true →
  let hook := delivered game in
  let result := revealEffect gameCode hook st in
  (snd result = Aggregate game
   ↔ status game = answer_reveal ∧ resultsReady game = Some true)
  ∧ (status game ≠ answer_reveal ∨ resultsReady game ≠ Some true →
     result = (setLoading (isAnswerReveal (status game)) st, Waiting)
     ∧ teamAnswers (fst result) = teamAnswers st
     ∧ rankedTeams (fst result) = rankedTeams st
     ∧ (status game = answer_reveal →
        truthy_string (displayError st hook) = false →
        render (fst result) hook = LoadingIndicator)
     ∧ (status game ≠ answer_reveal →
        render (fst result) hook ≠ LoadingIndicator)).
Proof.
  intros Hcode hook result. unfold result, revealEffect, hook.
  rewrite Hcode. simpl. unfold isAnswerReveal.
  destruct (decide (status game = answer_reveal)) as [Hs|Hs];
    destruct (decide (resultsReady game = Some true)) as [Hr|Hr];
    rewrite ?(bool_decide_eq_true_2 _ Hs), ?(bool_decide_eq_false_2 _ Hs),
            ?(bool_decide_eq_true_2 _ Hr), ?(bool_decide_eq_false_2 _ Hr);
    simpl.
  - split; [done|]. intros [H|H]; done.
  - split; [split; [done|intros [_ H]; done]|]. intros _.
    split_and!; try done.
    intros _ Herr. unfold render, displayError in *. simpl in *.
    by rewrite Herr.
  - split; [split; [done|intros [H _]; done]|]. intros _.
    split_and!; try done.
    intros _. unfold render, displayError. simpl.
    repeat case_match; done.
  - split; [split; [done|intros [H _]; done]|]. intros _.
    split_and!; try done.
    intros _. unfold render, displayError. simpl.
    repeat case_match; done.
Qed.

Lemma reveal_gate_witness :
  let game := {| status := answer_reveal; currentQuestionIndex := 3;
                 questionOrder := Some ["q1"; "q2"; "q3"; "q4"];
                 questions := []; resultsReady := Some false |} in
  truthy_string (Some "ABC123") = true
  ∧ revealEffect (Some "ABC123") (delivered game) initialPage
    = (setLoading true initialPage, Waiting).
Proof.
  intros game.
  assert (Hcode : truthy_string (Some "ABC123") = true) by reflexivity.
  destruct (reveal_gate (Some "ABC123") game initialPage Hcode)
    as [_ Hwait].
  split; [exact Hcode|].
  destruct Hwait as [Hresult _]; [right; discriminate|].
  exact Hresult.
Defined.

(** A pass whose question resolves and whose fetches succeed shows the
    sorted answer board and the ranking of the active teams. *)
Lemma processAndFetchData_settled localeCompare game order question f st :
  questionOrder game = Some order →
  0 ≤ currentQuestionIndex game < Z.of_nat (length order) →
  List.find (λ q, bool_decide (Some (q_id q)
                               = jsIndex order (currentQuestionIndex game)))
            (questions game) = Some question →
  let st' := processAndFetchData localeCompare game (FetchOk f) st in
  teamAnswers st'
  = processedAnswers localeCompare (activeTeamsOf (allTeamsForGame f))
                     (resultOf f)
  ∧ rankedTeams st'
    = rankedTeamsData (activeTeamsOf (allTeamsForGame f)) (allScores f)
  ∧ currentQuestion st' = Some question
  ∧ loading st' = false ∧ error st' = None.
Proof.
  intros Horder [Hlo Hhi] Hfind. unfold processAndFetchData. cbv zeta.
  destruct (Z.ltb_spec (currentQuestionIndex game) 0); [lia|].
  rewrite Horder.
  destruct (Z.leb_spec (Z.of_nat (length order)) (currentQuestionIndex game));
    [lia|].
  by rewrite Hfind.
Qed.

(** ** The advance transition *)

Lemma handleNextStep_fires gameCode game order st :
  advanceFires gameCode game order st →
  ∃ code, gameCode = Some code
    ∧ handleNextStep gameCode (Some game) st
      = (setIsNavigating true st,
         Some (code, planNextStep code (currentQuestionIndex game)
                       (Z.of_nat (length order)))).
Proof.
  intros (Hcode & Horder & Hnav).
  destruct gameCode as [code|]; [|done]. exists code. split; [done|].
  unfold handleNextStep. by rewrite Horder, Hcode, Hnav.
Qed.

Lemma advanceUpdates_fires gameCode game order st :
  advanceFires gameCode game order st →
  ∃ code, gameCode = Some code
    ∧ advanceUpdates gameCode (Some game) st
      = [updates (planNextStep code (currentQuestionIndex game)
                    (Z.of_nat (length order)))].
Proof.
  intros Hfires.
  destruct (handleNextStep_fires _ _ _ _ Hfires) as (code & -> & Hstep).
  exists code. split; [done|]. unfold advanceUpdates. by rewrite Hstep.
Qed.

(** C2: when the next index reaches the length of [questionOrder], the
    advance issues one update, which carries the status [game_end] and
    nothing else, so that the question index and [resultsReady] stay as
    they are; no other condition is consulted. *)
Theorem advance_end_of_game (gameCode : option string) (game : Game)
    (order : list string) (st : PageState) :
  advanceFires gameCode game order st →
  Z.of_nat (length order) ≤ currentQuestionIndex game + 1 →
  advanceUpdates gameCode (Some game) st = [onlyStatus game_end]
  ∧ applyUpdates (onlyStatus game_end) game
    = {| status := game_end;
         currentQuestionIndex := currentQuestionIndex game;
         questionOrder := questionOrder game;
         questions := questions game;
         resultsReady := resultsReady game |}.
Proof.
  intros Hfires Hend.
  destruct (advanceUpdates_fires _ _ _ _ Hfires) as (code & _ & ->).
  split; [|done]. unfold planNextStep.
  by destruct (Z.leb_spec (Z.of_nat (length order))
                          (currentQuestionIndex game + 1)); [|lia].
Qed.

Lemma advance_end_of_game_witness :
  advanceFires (Some "ABC123") (revealAt 15) sixteen initialPage
  ∧ Z.of_nat (length sixteen) ≤ currentQuestionIndex (revealAt 15) + 1
  ∧ advanceUpdates (Some "ABC123") (Some (revealAt 15)) initialPage
    = [onlyStatus game_end].
Proof.
  assert (Hfires : advanceFires (Some "ABC123") (revealAt 15) sixteen
                     initialPage) by (repeat split).
  assert (Hend : Z.of_nat (length sixteen)
                 ≤ currentQuestionIndex (revealAt 15) + 1)
    by (vm_compute; discriminate).
  destruct (advance_end_of_game _ _ _ _ Hfires Hend) as [Hupd _].
  split; [exact Hfires|]. split; [exact Hend | exact Hupd].
Defined.

(** C3: below the end of the order, a positive next index that is a
    multiple of [QUESTIONS_PER_CATEGORY] = 8 makes the advance issue one
    update carrying only the status [leaderboard]; the question index
    and [resultsReady] stay as they are. *)
Theorem advance_category_break (gameCode : option string) (game : Game)
    (order : list string) (st : PageState) :
  advanceFires gameCode game order st →
  currentQuestionIndex game + 1 < Z.of_nat (length order) →
  0 < currentQuestionIndex game + 1 →
  (currentQuestionIndex game + 1) mod QUESTIONS_PER_CATEGORY = 0 →
  QUESTIONS_PER_CATEGORY = 8
  ∧ advanceUpdates gameCode (Some game) st = [onlyStatus leaderboard]
  ∧ applyUpdates (onlyStatus leaderboard) game
    = {| status := leaderboard;
         currentQuestionIndex := currentQuestionIndex game;
         questionOrder := questionOrder game;
         questions := questions game;
         resultsReady := resultsReady game |}.
Proof.
  intros Hfires Hbelow Hpos Hmod.
  destruct (advanceUpdates_fires _ _ _ _ Hfires) as (code & _ & ->).
  split; [done|]. split; [|done]. unfold planNextStep.
  destruct (Z.leb_spec (Z.of_nat (length order))
                       (currentQuestionIndex game + 1)); [lia|].
  destruct (Z.ltb_spec 0 (currentQuestionIndex game + 1)); [|lia].
  rewrite Z.rem_mod_nonneg, Hmod by (unfold QUESTIONS_PER_CATEGORY; lia).
  done.
Qed.

Lemma advance_category_break_witness :
  advanceFires (Some "ABC123") (revealAt 7) sixteen initialPage
  ∧ advanceUpdates (Some "ABC123") (Some (revealAt 7)) initialPage
    = [onlyStatus leaderboard]
  ∧ currentQuestionIndex (applyUpdates (onlyStatus leaderboard) (revealAt 7))
    = 7.
Proof.
  assert (Hfires : advanceFires (Some "ABC123") (revealAt 7) sixteen
                     initialPage) by (repeat split).
  destruct (advance_category_break _ _ _ _ Hfires)
    as (_ & Hupd & Happly); [reflexivity..|].
  split; [exact Hfires|]. split; [exact Hupd|].
  rewrite Happly. reflexivity.
Defined.

(** C4: when neither the end of the order is reached nor a category
    boundary, the advance issues one update that sets the status to
    [question_display], the question index to its successor and
    [resultsReady] to false. *)
Theorem advance_next_question (gameCode : option string) (game : Game)
    (order : list string) (st : PageState) :
  advanceFires gameCode game order st →
  ¬ Z.of_nat (length order) ≤ currentQuestionIndex game + 1 →
  ¬ (0 < currentQuestionIndex game + 1
     ∧ (currentQuestionIndex game + 1) mod QUESTIONS_PER_CATEGORY = 0) →
  let next := {| u_status := Some question_display;
                 u_currentQuestionIndex := Some (currentQuestionIndex game + 1);
                 u_resultsReady := Some false |} in
  advanceUpdates gameCode (Some game) st = [next]
  ∧ applyUpdates next game
    = {| status := question_display;
         currentQuestionIndex := currentQuestionIndex game + 1;
         questionOrder := questionOrder game;
         questions := questions game;
         resultsReady := Some false |}.
Proof.
  intros Hfires Hbelow Hnobreak next.
  destruct (advanceUpdates_fires _ _ _ _ Hfires) as (code & _ & ->).
  split; [|done]. unfold planNextStep.
  destruct (Z.leb_spec (Z.of_nat (length order))
                       (currentQuestionIndex game + 1)); [lia|].
  destruct (Z.ltb_spec 0 (currentQuestionIndex game + 1)) as [Hpos|Hneg];
    [|done].
  rewrite Z.rem_mod_nonneg by (unfold QUESTIONS_PER_CATEGORY; lia).
  destruct (Z.eqb_spec ((currentQuestionIndex game + 1)
                          mod QUESTIONS_PER_CATEGORY) 0); [|done].
  exfalso. by apply Hnobreak.
Qed.

Lemma advance_next_question_witness :
  advanceFires (Some "ABC123") (revealAt 2) sixteen initialPage
  ∧ advanceUpdates (Some "ABC123") (Some (revealAt 2)) initialPage
    = [{| u_status := Some question_display;
          u_currentQuestionIndex := Some 3;
          u_resultsReady := Some false |}].
Proof.
  assert (Hfires : advanceFires (Some "ABC123") (revealAt 2) sixteen
                     initialPage) by (repeat split).
  destruct (advance_next_question _ _ _ _ Hfires) as [Hupd _].
  - vm_compute. intros H. apply H. reflexivity.
  - intros [_ H]. vm_compute in H. discriminate H.
  - split; [exact Hfires | exact Hupd].
Defined.

(** ** The in-flight guard *)

Lemma click_while_navigating w :
  isNavigating (page w) = true → step w Click = w.
Proof.
  intros Hnav. destruct w as [st c snap rec pend cs rs]. simpl in *.
  unfold handleNextStep.
  destruct c as [c|]; [|done]. destruct snap as [g|]; [|done].
  destruct (questionOrder g); [|done].
  by rewrite Hnav, orb_true_r.
Qed.

Lemma run_cons w e events : run w (e :: events) = run (step w e) events.
Proof. reflexivity. Qed.

Lemma run_nil w : run w [] = w.
Proof. reflexivity. Qed.





(** * Further properties of the page *)

(** ** Ranks as counts *)

Lemma teamsAbove_app p l1 l2 :
  teamsAbove p (l1 ++ l2) = (teamsAbove p l1 + teamsAbove p l2)%nat.
Proof. unfold teamsAbove. by rewrite filter_app, length_app. Qed.

Lemma teamsAbove_none p l :
  Forall (λ team, points team ≤ p) l → teamsAbove p l = 0%nat.
Proof.
  unfold teamsAbove. induction 1 as [|team l Hle _ IH]; [done|].
  rewrite filter_cons. destruct (decide (p < points team)); [lia|done].
Qed.

Lemma teamsAbove_all p l :
  Forall (λ team, p < points team) l → teamsAbove p l = length l.
Proof.
  unfold teamsAbove. induction 1 as [|team l Hlt _ IH]; [done|].
  rewrite filter_cons. destruct (decide (p < points team)); [|lia].
  simpl. by rewrite IH.
Qed.

Lemma teamsAbove_Permutation p l1 l2 :
  l1 ≡ₚ l2 → teamsAbove p l1 = teamsAbove p l2.
Proof. intros Hperm. unfold teamsAbove. by rewrite Hperm. Qed.

Lemma teamsAbove_mono p q l :
  p ≤ q → (teamsAbove q l ≤ teamsAbove p l)%nat.
Proof.
  intros Hpq. unfold teamsAbove. induction l as [|team l IH]; [done|].
  rewrite !filter_cons.
  destruct (decide (q < points team)), (decide (p < points team));
    simpl; lia.
Qed.

Lemma teamsAbove_strict p team l :
  team ∈ l → p < points team →
  (teamsAbove (points team) l < teamsAbove p l)%nat.
Proof.
  intros Hin Hlt. induction Hin as [team l|team other l Hin IH].
  - pose proof (teamsAbove_mono p (points team) l ltac:(lia)) as Hmono.
    unfold teamsAbove in *. rewrite !filter_cons.
    destruct (decide (points team < points team)); [lia|].
    destruct (decide (p < points team)); [simpl; lia|lia].
  - specialize (IH Hlt). unfold teamsAbove in *. rewrite !filter_cons.
    destruct (decide (points team < points other)),
             (decide (p < points other)); simpl; lia.
Qed.

(** The loop invariant: [currentRank] is one more than the number of
    processed teams above [previousPoints], and no processed team lies
    below [previousPoints]. *)
Lemma rankLoop_count teams : ∀ processed currentRank previousPoints,
  processed ≠ [] →
  StronglySorted scoreGe teams →
  Forall (λ team, previousPoints ≤ points team) processed →
  Forall (λ team, points team ≤ previousPoints) teams →
  currentRank = 1 + Z.of_nat (teamsAbove previousPoints processed) →
  rankLoop (length processed) currentRank previousPoints teams
  = (λ team, {| rt_team := team;
                rank := 1 + Z.of_nat (teamsAbove (points team)
                                                 (processed ++ teams)) |})
    <$> teams.
Proof.
  induction teams as [|team rest IH];
    intros processed cr pp Hne Hsorted Hpre Hrest Hcr; [done|].
  apply StronglySorted_inv in Hsorted as [Hsorted Hge].
  apply Forall_cons in Hrest as [Hle Hrest].
  assert (Hlen : (0 < length processed)%nat)
    by (destruct processed; [done|simpl; lia]).
  assert (Htail : teamsAbove (points team) (team :: rest) = 0%nat).
  { apply teamsAbove_none. constructor; [lia|].
    eapply Forall_impl; [exact Hge|]. intros t Ht. exact Ht. }
  simpl rankLoop. rewrite fmap_cons.
  destruct (0 <? length processed)%nat eqn:Hpos;
    [|apply Nat.ltb_ge in Hpos; lia].
  simpl andb.
  replace (S (length processed)) with (length (processed ++ [team]))
    by (rewrite length_app; simpl; lia).
  rewrite (teamsAbove_app _ processed (team :: rest)), Htail, Nat.add_0_r.
  destruct (Z.ltb_spec (points team) pp) as [Hlt|Hnlt].
  - assert (Hall : teamsAbove (points team) processed = length processed).
    { apply teamsAbove_all. eapply Forall_impl; [exact Hpre|].
      intros t Ht. simpl in Ht. lia. }
    rewrite Hall. f_equal; [f_equal; lia|].
    rewrite (IH (processed ++ [team])).
    + by rewrite <- app_assoc.
    + by destruct processed.
    + done.
    + apply Forall_app. split; [|by constructor].
      eapply Forall_impl; [exact Hpre|]. intros t Ht. simpl in Ht. lia.
    + eapply Forall_impl; [exact Hge|]. intros t Ht. exact Ht.
    + rewrite teamsAbove_app, Hall.
      rewrite (teamsAbove_none _ [team]) by (constructor; [lia|done]).
      lia.
  - assert (pp = points team) as -> by lia.
    f_equal; [by f_equal|].
    rewrite (IH (processed ++ [team])).
    + by rewrite <- app_assoc.
    + by destruct processed.
    + done.
    + apply Forall_app. split; [done|by constructor].
    + eapply Forall_impl; [exact Hge|]. intros t Ht. exact Ht.
    + rewrite teamsAbove_app.
      rewrite (teamsAbove_none _ [team]) by (constructor; [lia|done]).
      lia.
Qed.

Lemma rankTeams_count teams :
  StronglySorted scoreGe teams →
  rankTeams teams
  = (λ team, {| rt_team := team;
                rank := 1 + Z.of_nat (teamsAbove (points team) teams) |})
    <$> teams.
Proof.
  intros Hsorted. destruct teams as [|first rest]; [done|].
  pose proof Hsorted as Hall.
  apply StronglySorted_inv in Hall as [Hrest Hge].
  assert (Hfirst : teamsAbove (points first) (first :: rest) = 0%nat).
  { apply teamsAbove_none. constructor; [lia|].
    eapply Forall_impl; [exact Hge|]. intros t Ht. exact Ht. }
  simpl rankTeams. rewrite fmap_cons, Hfirst. f_equal.
  apply (rankLoop_count rest [first] 1 (points first)).
  - done.
  - done.
  - by constructor.
  - eapply Forall_impl; [exact Hge|]. intros t Ht. exact Ht.
  - rewrite (teamsAbove_none _ [first]) by (constructor; [lia|done]). lia.
Qed.

Lemma rankedTeamsData_count activeTeams allScores :
  rankedTeamsData activeTeams allScores
  = (λ team, {| rt_team := team;
                rank := 1 + Z.of_nat
                             (teamsAbove (points team)
                                (teamsWithScores activeTeams allScores)) |})
    <$> sortByPoints (teamsWithScores activeTeams allScores).
Proof.
  unfold rankedTeamsData.
  rewrite (rankTeams_count _ (sortByPoints_sorted _)).
  apply list_fmap_ext. intros _ team _. do 3 f_equal.
  apply teamsAbove_Permutation. unfold sortByPoints. apply sort_Permutation.
Qed.

Lemma teamsAbove_teamsWithScores p activeTeams
    (allScores : gmap string TeamScore) :
  teamsAbove p (teamsWithScores activeTeams allScores)
  = length (filter (λ team, p < from_option totalScore 0
                                  (allScores !! t_id team)) activeTeams).
Proof.
  unfold teamsAbove, teamsWithScores.
  induction activeTeams as [|team l IH]; [done|].
  simpl map. rewrite !filter_cons. simpl points. rewrite scoreOf_lookup.
  destruct (decide (p < from_option totalScore 0 (allScores !! t_id team)));
    simpl; by rewrite IH.
Qed.

(** X1: the rank of every team on the leaderboard is one more than the
    number of active teams whose fetched total (0 without a score entry)
    is strictly greater than its own. *)
Theorem rank_counts_teams_above (activeTeams : list Team)
    (allScores : gmap string TeamScore) :
  Forall (λ r,
     rank r
     = 1 + Z.of_nat
             (length (filter (λ team, points (rt_team r)
                                      < from_option totalScore 0
                                          (allScores !! t_id team))
                             activeTeams)))
    (rankedTeamsData activeTeams allScores).
Proof.
  rewrite rankedTeamsData_count, Forall_fmap.
  apply Forall_forall. intros team _. simpl.
  by rewrite teamsAbove_teamsWithScores.
Qed.

Lemma teamsWithScores_Permutation l1 l2 (allScores : gmap string TeamScore) :
  l1 ≡ₚ l2 → teamsWithScores l1 allScores ≡ₚ teamsWithScores l2 allScores.
Proof. intros Hperm. unfold teamsWithScores. by rewrite !map_fmap, Hperm. Qed.

(** X2: the ranks do not depend on the order in which the teams were
    fetched: two arrangements of the same teams give the same ranked
    rows, up to the order of teams with equal points. *)
Theorem ranking_independent_of_fetch_order (teams1 teams2 : list Team)
    (allScores : gmap string TeamScore) :
  teams1 ≡ₚ teams2 →
  rankedTeamsData teams1 allScores ≡ₚ rankedTeamsData teams2 allScores.
Proof.
  intros Hperm. rewrite !rankedTeamsData_count.
  pose proof (teamsWithScores_Permutation _ _ allScores Hperm) as Hws.
  unfold sortByPoints. rewrite !sort_Permutation.
  rewrite (list_fmap_ext _
             (λ team, {| rt_team := team;
                         rank := 1 + Z.of_nat
                                  (teamsAbove (points team)
                                     (teamsWithScores teams2 allScores)) |})
             (teamsWithScores teams1 allScores)).
  - by rewrite Hws.
  - intros _ team _. do 3 f_equal. by apply teamsAbove_Permutation.
Qed.

Lemma ranking_independent_of_fetch_order_witness :
  let a := {| t_id := "a"; t_name := Some "Lavovi"; t_mascotId := 1;
              t_isActive := None |} in
  let b := {| t_id := "b"; t_name := Some "Orlovi"; t_mascotId := 2;
              t_isActive := Some true |} in
  let scores : gmap string TeamScore :=
    {[ "a" := {| totalScore := 10 |}; "b" := {| totalScore := 30 |} ]} in
  [a; b] ≡ₚ [b; a]
  ∧ rankedTeamsData [a; b] scores ≡ₚ rankedTeamsData [b; a] scores.
Proof.
  intros a b scores.
  assert (Hperm : [a; b] ≡ₚ [b; a]) by apply Permutation_swap.
  split; [exact Hperm|].
  exact (ranking_independent_of_fetch_order [a; b] [b; a] scores Hperm).
Defined.

(** X3: for any two teams on the leaderboard, not only neighbours, the
    better rank goes with the higher total and equal ranks with equal
    totals. *)
Theorem ranks_order_as_points (activeTeams : list Team)
    (allScores : gmap string TeamScore) (a b : RankedTeam) :
  a ∈ rankedTeamsData activeTeams allScores →
  b ∈ rankedTeamsData activeTeams allScores →
  (rank a < rank b ↔ points (rt_team b) < points (rt_team a))
  ∧ (rank a = rank b ↔ points (rt_team a) = points (rt_team b)).
Proof.
  rewrite rankedTeamsData_count.
  intros (ta & -> & Ha)%list_elem_of_fmap (tb & -> & Hb)%list_elem_of_fmap.
  simpl.
  set (all := teamsWithScores activeTeams allScores) in *.
  assert (Hina : ta ∈ all)
    by (by rewrite <- (sort_Permutation comparePoints all)).
  assert (Hinb : tb ∈ all)
    by (by rewrite <- (sort_Permutation comparePoints all)).
  destruct (Z.lt_trichotomy (points ta) (points tb)) as [Hlt|[Heq|Hgt]].
  - pose proof (teamsAbove_strict _ _ _ Hinb Hlt). lia.
  - rewrite Heq. lia.
  - pose proof (teamsAbove_strict _ _ _ Hina Hgt). lia.
Qed.

Lemma ranks_order_as_points_witness :
  let a := {| t_id := "a"; t_name := Some "Lavovi"; t_mascotId := 1;
              t_isActive := None |} in
  let b := {| t_id := "b"; t_name := Some "Orlovi"; t_mascotId := 2;
              t_isActive := Some true |} in
  let scores : gmap string TeamScore :=
    {[ "a" := {| totalScore := 10 |}; "b" := {| totalScore := 30 |} ]} in
  let first := {| rt_team := {| ws_team := b; points := 30 |}; rank := 1 |} in
  let second := {| rt_team := {| ws_team := a; points := 10 |}; rank := 2 |} in
  first ∈ rankedTeamsData [a; b] scores
  ∧ second ∈ rankedTeamsData [a; b] scores
  ∧ (rank first < rank second
     ↔ points (rt_team second) < points (rt_team first)).
Proof.
  intros a b scores first second.
  assert (Hout : rankedTeamsData [a; b] scores = [first; second])
    by (vm_compute; reflexivity).
  assert (H1 : first ∈ rankedTeamsData [a; b] scores)
    by (rewrite Hout; apply list_elem_of_here).
  assert (H2 : second ∈ rankedTeamsData [a; b] scores)
    by (rewrite Hout; apply list_elem_of_further, list_elem_of_here).
  split; [exact H1|]. split; [exact H2|].
  exact (proj1 (ranks_order_as_points [a; b] scores first second H1 H2)).
Defined.

(** X4: teams with the same total stand on the leaderboard in the order
    in which they were fetched. *)
Theorem leaderboard_keeps_order_of_ties (activeTeams : list Team)
    (allScores : gmap string TeamScore) (p : Z) :
  filter (λ team, points team = p)
         (rt_team <$> rankedTeamsData activeTeams allScores)
  = filter (λ team, points team = p)
           (teamsWithScores activeTeams allScores).
Proof.
  unfold rankedTeamsData. rewrite rankTeams_teams. unfold sortByPoints.
  rewrite !(list_filter_iff (λ team, points team = p)
              (λ team, comparePoints (teamOfScore p) team = 0))
    by (intros team; unfold comparePoints; simpl; lia).
  apply sort_stable, comparePoints_consistent.
Qed.

(** X5: when no score has been fetched for any team, every team has 0
    points and rank 1, and the leaderboard lists the teams in the order
    in which they were fetched. *)
Theorem ranking_without_scores (activeTeams : list Team) :
  rankedTeamsData activeTeams ∅
  = (λ team, {| rt_team := {| ws_team := team; points := 0 |}; rank := 1 |})
    <$> activeTeams.
Proof.
  assert (Hws : teamsWithScores activeTeams ∅
                = (λ team, {| ws_team := team; points := 0 |})
                  <$> activeTeams).
  { unfold teamsWithScores. rewrite map_fmap. apply list_fmap_ext.
    intros _ team _. unfold scoreOf. by rewrite lookup_empty. }
  assert (Hzero : Forall (λ team, points team ≤ 0)
                         (teamsWithScores activeTeams ∅)).
  { rewrite Hws, Forall_fmap. by apply Forall_forall. }
  assert (Hsorted : StronglySorted scoreGe (teamsWithScores activeTeams ∅)).
  { rewrite Hws. clear. induction activeTeams as [|team l IH];
      [constructor|].
    rewrite fmap_cons. constructor; [exact IH|].
    rewrite Forall_fmap. by apply Forall_forall. }
  rewrite rankedTeamsData_count, (sortByPoints_sorted_id _ Hsorted).
  rewrite (list_fmap_ext _ (λ team, {| rt_team := team; rank := 1 |})
             (teamsWithScores activeTeams ∅)).
  - by rewrite Hws, <- list_fmap_compose.
  - intros i team Hteam. f_equal.
    assert (points team = 0) as ->.
    { rewrite Hws, list_lookup_fmap in Hteam.
      destruct (activeTeams !! i); [|done]. by injection Hteam as <-. }
    by rewrite (teamsAbove_none 0 _ Hzero).
Qed.

(** ** The aggregation pass *)

Lemma processAndFetchData_resolved localeCompare game order question
    outcome st :
  resolvesQuestion game order question →
  processAndFetchData localeCompare game outcome st
  = let st1 :=
      setQuestion question
        (Z.of_nat (length order) - 1 <=? currentQuestionIndex game)
        (setLoading true st) in
    match outcome with
    | TeamsRejected message | AnswersRejected message =>
        processingError message st1
    | ScoresRejected teams results message =>
        processingError message
          (setTeamAnswers
             (processedAnswers localeCompare (activeTeamsOf teams) results)
             st1)
    | FetchOk f =>
        setLoading false
          (setError None
             (setRankedTeams
                (rankedTeamsData (activeTeamsOf (allTeamsForGame f))
                                 (allScores f))
                (setTeamAnswers
                   (processedAnswers localeCompare
                      (activeTeamsOf (allTeamsForGame f)) (resultOf f))
                   st1)))
    end.
Proof.
  intros (Horder & [Hlo Hhi] & Hfind). unfold processAndFetchData. cbv zeta.
  destruct (Z.ltb_spec (currentQuestionIndex game) 0); [lia|].
  rewrite Horder.
  destruct (Z.leb_spec (Z.of_nat (length order)) (currentQuestionIndex game));
    [lia|].
  by rewrite Hfind.
Qed.

(** X6: however a pass ends, the loading flag is off afterwards and the
    in-flight guard of the advance button is untouched; the error is
    cleared exactly when the current question resolves and all three
    fetches succeed. *)
Theorem pass_always_settles (localeCompare : string → string → Z)
    (game : Game) (outcome : FetchOutcome) (st : PageState) :
  let st' := processAndFetchData localeCompare game outcome st in
  loading st' = false
  ∧ isNavigating st' = isNavigating st
  ∧ (error st' = None
     ↔ ∃ order question f,
         resolvesQuestion game order question ∧ outcome = FetchOk f).
Proof.
  unfold processAndFetchData, resolvesQuestion. cbv zeta.
  destruct (Z.ltb_spec (currentQuestionIndex game) 0) as [Hneg|Hpos].
  { split_and!; [done..|].
    split; [done|]. intros (? & ? & ? & (_ & ? & _) & _). lia. }
  destruct (questionOrder game) as [order|].
  2: { split_and!; [done..|].
       split; [done|]. by intros (? & ? & ? & (? & _) & _). }
  destruct (Z.leb_spec (Z.of_nat (length order)) (currentQuestionIndex game))
    as [Hbig|Hsmall].
  { split_and!; [done..|].
    split; [done|]. intros (? & ? & ? & (Ho & ? & _) & _).
    injection Ho as <-. lia. }
  destruct (List.find _ (questions game)) as [question|] eqn:Hfind.
  2: { split_and!; [done..|].
       split; [done|]. intros (? & ? & ? & (Ho & _ & Hf) & _).
       injection Ho as <-. congruence. }
  destruct outcome as [m|m|teams results m|f];
    (split_and!; [done..|]);
    try (split; [done|]; by intros (? & ? & ? & _ & ?)).
  split; [|done]. intros _. exists order, question, f.
  split_and!; done.
Qed.

(** X7: when the question index lies outside [questionOrder], or no
    question carries the identifier found there, the pass reports the
    error and leaves the question, the answer board, the leaderboard and
    the last-question flag as they were, whatever the fetches would
    return. *)
Theorem pass_rejects_unresolved_question
    (localeCompare : string → string → Z) (game : Game)
    (order : list string) (outcome : FetchOutcome) (st : PageState) :
  questionOrder game = Some order →
  let index := currentQuestionIndex game in
  let outOfRange := bool_decide (index < 0 ∨ Z.of_nat (length order) ≤ index) in
  outOfRange = true
  ∨ List.find (λ q, bool_decide (Some (q_id q) = jsIndex order index))
              (questions game) = None →
  let st' := processAndFetchData localeCompare game outcome st in
  error st'
  = Some (if outOfRange
          then "Error processing data: Invalid current question index."
          else "Error processing data: Current question data not found in game state.")
  ∧ currentQuestion st' = currentQuestion st
  ∧ teamAnswers st' = teamAnswers st
  ∧ rankedTeams st' = rankedTeams st
  ∧ isLastQuestion st' = isLastQuestion st.
Proof.
  intros Horder index outOfRange Hbad. unfold processAndFetchData.
  cbv zeta. fold index. unfold outOfRange in *.
  destruct (Z.ltb_spec index 0) as [Hneg|Hpos].
  { rewrite bool_decide_eq_true_2 by lia. done. }
  rewrite Horder.
  destruct (Z.leb_spec (Z.of_nat (length order)) index) as [Hbig|Hsmall].
  { rewrite bool_decide_eq_true_2 by lia. done. }
  rewrite bool_decide_eq_false_2 in * by lia.
  destruct Hbad as [?|Hfind]; [done|]. by rewrite Hfind.
Qed.

Lemma pass_rejects_unresolved_question_witness :
  questionOrder (quizAt 16) = Some sixteen
  ∧ error (processAndFetchData ordinalCompare (quizAt 16)
             (TeamsRejected "offline") initialPage)
    = Some "Error processing data: Invalid current question index."
  ∧ currentQuestion (processAndFetchData ordinalCompare (quizAt 16)
                       (TeamsRejected "offline") initialPage)
    = None.
Proof.
  assert (Horder : questionOrder (quizAt 16) = Some sixteen) by reflexivity.
  destruct (pass_rejects_unresolved_question ordinalCompare (quizAt 16)
              sixteen (TeamsRejected "offline") initialPage Horder)
    as (Herr & Hq & _).
  - left. reflexivity.
  - split; [exact Horder|]. split; [exact Herr | exact Hq].
Defined.

(** X8: a fetch that fails after the question has resolved leaves the
    new question on the page and reports the message.  When the team or
    answer fetch fails, the board and the leaderboard stay as they were;
    when only the score fetch fails, the board already shows the new
    answers while the leaderboard is still the old one. *)
Theorem pass_with_failed_fetch (localeCompare : string → string → Z)
    (game : Game) (order : list string) (question : Question)
    (st : PageState) (message : string) :
  resolvesQuestion game order question →
  (∀ outcome,
     outcome = TeamsRejected message ∨ outcome = AnswersRejected message →
     let st' := processAndFetchData localeCompare game outcome st in
     error st' = Some ("Error processing data: " ++ message)%string
     ∧ currentQuestion st' = Some question
     ∧ teamAnswers st' = teamAnswers st
     ∧ rankedTeams st' = rankedTeams st)
  ∧ (∀ teams results,
     let st' := processAndFetchData localeCompare game
                  (ScoresRejected teams results message) st in
     error st' = Some ("Error processing data: " ++ message)%string
     ∧ currentQuestion st' = Some question
     ∧ teamAnswers st'
       = processedAnswers localeCompare (activeTeamsOf teams) results
     ∧ rankedTeams st' = rankedTeams st).
Proof.
  intros Hres. split.
  - intros outcome [-> | ->] st';
      unfold st'; by rewrite (processAndFetchData_resolved _ _ _ _ _ _ Hres).
  - intros teams results st'.
    unfold st'. by rewrite (processAndFetchData_resolved _ _ _ _ _ _ Hres).
Qed.

Lemma pass_with_failed_fetch_witness :
  resolvesQuestion (quizAt 2) sixteen (quizQuestion "q03")
  ∧ rankedTeams (processAndFetchData ordinalCompare (quizAt 2)
                   (ScoresRejected [] (λ _, None) "offline") initialPage)
    = [].
Proof.
  assert (Hres : resolvesQuestion (quizAt 2) sixteen (quizQuestion "q03")).
  { split; [reflexivity|]. split; [|reflexivity]. vm_compute.
    split; [intros H; discriminate H | reflexivity]. }
  split; [exact Hres|].
  destruct (pass_with_failed_fetch ordinalCompare (quizAt 2) sixteen
              (quizQuestion "q03") initialPage "offline" Hres) as [_ Hscores].
  destruct (Hscores [] (λ _, None)) as (_ & _ & _ & Hranked).
  exact Hranked.
Defined.

(** X9: once a pass has resolved the question, the last-question flag
    of the page is set exactly when the next press of the advance button
    ends the game. *)
Theorem last_question_flag_means_game_end
    (localeCompare : string → string → Z) (gameCode : option string)
    (game : Game) (order : list string) (question : Question)
    (outcome : FetchOutcome) (st st0 : PageState) :
  resolvesQuestion game order question →
  advanceFires gameCode game order st0 →
  isLastQuestion (processAndFetchData localeCompare game outcome st) = true
  ↔ advanceUpdates gameCode (Some game) st0 = [onlyStatus game_end].
Proof.
  intros Hres Hfires.
  rewrite (processAndFetchData_resolved _ _ _ _ _ _ Hres).
  destruct (advanceUpdates_fires _ _ _ _ Hfires) as (code & _ & ->).
  assert (Hflag : ∀ st', isLastQuestion st'
                         = (Z.of_nat (length order) - 1
                            <=? currentQuestionIndex game) →
            (isLastQuestion st' = true
             ↔ Z.of_nat (length order) ≤ currentQuestionIndex game + 1)).
  { intros st' ->. rewrite Z.leb_le. lia. }
  assert (Hend : [updates (planNextStep code (currentQuestionIndex game)
                             (Z.of_nat (length order)))]
                 = [onlyStatus game_end]
                 ↔ Z.of_nat (length order) ≤ currentQuestionIndex game + 1).
  { unfold planNextStep.
    destruct (Z.leb_spec (Z.of_nat (length order))
                         (currentQuestionIndex game + 1)); simpl.
    - split; [lia|done].
    - split; [|lia]. by destruct (_ && _). }
  rewrite Hend. destruct outcome; by apply Hflag.
Qed.

Lemma last_question_flag_means_game_end_witness :
  resolvesQuestion (quizAt 15) sixteen (quizQuestion "q16")
  ∧ advanceFires (Some "ABC123") (quizAt 15) sixteen initialPage
  ∧ (isLastQuestion (processAndFetchData ordinalCompare (quizAt 15)
                       (TeamsRejected "offline") initialPage) = true
     ↔ advanceUpdates (Some "ABC123") (Some (quizAt 15)) initialPage
       = [onlyStatus game_end]).
Proof.
  assert (Hres : resolvesQuestion (quizAt 15) sixteen (quizQuestion "q16")).
  { split; [reflexivity|]. split; [|reflexivity]. vm_compute.
    split; [intros H; discriminate H | reflexivity]. }
  assert (Hfires : advanceFires (Some "ABC123") (quizAt 15) sixteen
                     initialPage) by (repeat split).
  split; [exact Hres|]. split; [exact Hfires|].
  exact (last_question_flag_means_game_end ordinalCompare (Some "ABC123")
           (quizAt 15) sixteen (quizQuestion "q16") (TeamsRejected "offline")
           initialPage initialPage Hres Hfires).
Defined.

Lemma processingError_truthy message st :
  truthy_string (error (processingError message st)) = true.
Proof. reflexivity. Qed.

(** X10: after a pass on a delivered snapshot the page never shows the
    loading indicator: it shows the error panel with the message of the
    pass when the pass failed, and the reveal board for the snapshot and
    the resolved question when it succeeded. *)
Theorem settled_pass_view (localeCompare : string → string → Z)
    (game : Game) (outcome : FetchOutcome) (st : PageState) :
  let st' := processAndFetchData localeCompare game outcome st in
  render st' (delivered game) ≠ LoadingIndicator
  ∧ (error st' ≠ None → render st' (delivered game) = ErrorPanel (error st'))
  ∧ (error st' = None →
     ∃ question, currentQuestion st' = Some question
       ∧ render st' (delivered game) = RevealBoard game question).
Proof.
  intros st'.
  assert (Hfail : ∀ message st1,
            st' = processingError message st1 →
            render st' (delivered game) ≠ LoadingIndicator
            ∧ (error st' ≠ None →
               render st' (delivered game) = ErrorPanel (error st'))
            ∧ (error st' = None →
               ∃ question, currentQuestion st' = Some question
                 ∧ render st' (delivered game) = RevealBoard game question)).
  { intros message st1 ->. unfold render, displayError.
    rewrite processingError_truthy. cbn [gameError delivered].
    rewrite processingError_truthy. done. }
  unfold st', processAndFetchData in *. cbv zeta in *.
  destruct (currentQuestionIndex game <? 0); [by eapply Hfail|].
  destruct (questionOrder game) as [order|]; [|by eapply Hfail].
  destruct (Z.of_nat (length order) <=? currentQuestionIndex game);
    [by eapply Hfail|].
  destruct (List.find _ (questions game)) as [question|];
    [|by eapply Hfail].
  destruct outcome as [m|m|teams results m|f]; try (by eapply Hfail).
  split_and!; [done..|]. intros _. by exists question.
Qed.

(** X11: without a game code in [localStorage] the page reports the
    missing code, starts no pass and shows the error panel whatever the
    subscription delivers, and the advance button issues no update. *)
Theorem page_without_game_code (gameCode : option string) (hook : HookState)
    (st : PageState) :
  truthy_string gameCode = false →
  revealEffect gameCode hook st
  = (setError (Some "Missing game code. Redirecting...") st, RedirectToAdmin)
  ∧ render (fst (revealEffect gameCode hook st)) hook
    = ErrorPanel (Some "Missing game code. Redirecting...")
  ∧ handleNextStep gameCode (gameData hook) st = (st, None)
  ∧ advanceUpdates gameCode (gameData hook) st = [].
Proof.
  intros Hcode. unfold advanceUpdates, handleNextStep, revealEffect.
  rewrite Hcode. simpl. split_and!; try done.
  - destruct gameCode as [c|]; [|done]. destruct (gameData hook) as [g|];
      [|done]. by destruct (questionOrder g).
  - destruct gameCode as [c|]; [|done]. destruct (gameData hook) as [g|];
      [|done]. by destruct (questionOrder g).
Qed.

Lemma page_without_game_code_witness :
  truthy_string (Some "") = false
  ∧ advanceUpdates (Some "") (gameData (delivered (revealAt 2))) initialPage
    = [].
Proof.
  assert (Hcode : truthy_string (Some "") = false) by reflexivity.
  destruct (page_without_game_code (Some "") (delivered (revealAt 2))
              initialPage Hcode) as (_ & _ & _ & Hnone).
  split; [exact Hcode | exact Hnone].
Defined.

(** ** The advance button, continued *)

(** X12: a press of the advance button issues at most one update; it
    issues none exactly when the game code is missing or empty, no
    snapshot or no question order is at hand, or an advance is already
    under way, and then the state of the page is left as it is. *)
Theorem advance_blocked_iff (gameCode : option string) (game : option Game)
    (st : PageState) :
  (length (advanceUpdates gameCode game st) ≤ 1)%nat
  ∧ (advanceUpdates gameCode game st = []
     ↔ truthy_string gameCode = false
       ∨ game = None
       ∨ (∃ g, game = Some g ∧ questionOrder g = None)
       ∨ isNavigating st = true)
  ∧ (advanceUpdates gameCode game st = [] →
     fst (handleNextStep gameCode game st) = st).
Proof.
  unfold advanceUpdates, handleNextStep.
  destruct gameCode as [c|]; [|split_and!; [simpl; lia| |done]; naive_solver].
  destruct game as [g|]; [|split_and!; [simpl; lia| |done]; naive_solver].
  destruct (questionOrder g) as [order|] eqn:Horder;
    [|split_and!; [simpl; lia| |done]; naive_solver].
  destruct (truthy_string (Some c)) eqn:Hcode; simpl;
    [|split_and!; [lia| |done]; naive_solver].
  destruct (isNavigating st) eqn:Hnav; simpl;
    [split_and!; [lia| |done]; naive_solver|].
  split_and!; [lia| |done].
  split; [done|]. intros [?|[?|[(g' & Hg & Hnone)|?]]]; try done.
  injection Hg as <-. congruence.
Qed.

Lemma advance_status_not_reveal code index total :
  ∃ s, u_status (updates (planNextStep code index total)) = Some s
       ∧ s ≠ answer_reveal.
Proof.
  unfold planNextStep. destruct (total <=? index + 1).
  - by exists game_end.
  - destruct (_ && _); [by exists leaderboard|by exists question_display].
Qed.

(** X13: an advance from a snapshot whose question index lies within
    the order leaves it there: the updated record keeps the order and
    the questions, its index is the old one or its successor and still
    within the order, and its status is one of [game_end], [leaderboard]
    and [question_display]. *)
Theorem advance_keeps_index_in_range (gameCode : option string) (game : Game)
    (order : list string) (st : PageState) :
  advanceFires gameCode game order st →
  0 ≤ currentQuestionIndex game < Z.of_nat (length order) →
  ∃ u, advanceUpdates gameCode (Some game) st = [u]
    ∧ let game' := applyUpdates u game in
      questionOrder game' = Some order
      ∧ questions game' = questions game
      ∧ 0 ≤ currentQuestionIndex game' < Z.of_nat (length order)
      ∧ currentQuestionIndex game ≤ currentQuestionIndex game'
        ≤ currentQuestionIndex game + 1
      ∧ (status game' = game_end ∨ status game' = leaderboard
         ∨ status game' = question_display).
Proof.
  intros Hfires Hrange.
  destruct (advanceUpdates_fires _ _ _ _ Hfires) as (code & _ & ->).
  destruct Hfires as (_ & Horder & _).
  eexists. split; [reflexivity|]. unfold planNextStep.
  destruct (Z.leb_spec (Z.of_nat (length order))
                       (currentQuestionIndex game + 1)); simpl.
  - split_and!; try done; try lia. by left.
  - destruct (_ && _); simpl.
    + split_and!; try done; try lia. right. by left.
    + split_and!; try done; try lia. right. by right.
Qed.

Lemma advance_keeps_index_in_range_witness :
  advanceFires (Some "ABC123") (revealAt 2) sixteen initialPage
  ∧ ∃ u, advanceUpdates (Some "ABC123") (Some (revealAt 2)) initialPage = [u]
      ∧ 0 ≤ currentQuestionIndex (applyUpdates u (revealAt 2))
        < Z.of_nat (length sixteen).
Proof.
  assert (Hfires : advanceFires (Some "ABC123") (revealAt 2) sixteen
                     initialPage) by (repeat split).
  split; [exact Hfires|].
  destruct (advance_keeps_index_in_range _ _ _ _ Hfires)
    as (u & Hu & _ & _ & Hrange & _).
  - vm_compute. split; [intros H; discriminate H | reflexivity].
  - exists u. split; [exact Hu | exact Hrange].
Defined.

(** X14: the update of an advance closes the reveal gate: on the
    updated snapshot the first effect starts no pass and turns the
    loading flag off, whatever the state of the page. *)
Theorem advance_closes_reveal_gate (gameCode : option string) (game : Game)
    (order : list string) (st : PageState) :
  advanceFires gameCode game order st →
  ∃ u, advanceUpdates gameCode (Some game) st = [u]
    ∧ ∀ st', revealEffect gameCode (delivered (applyUpdates u game)) st'
             = (setLoading false st', Waiting).
Proof.
  intros Hfires.
  destruct (advanceUpdates_fires _ _ _ _ Hfires) as (code & _ & ->).
  destruct Hfires as (Hcode & _ & _).
  eexists. split; [reflexivity|]. intros st'.
  destruct (advance_status_not_reveal code (currentQuestionIndex game)
              (Z.of_nat (length order))) as (s & Hs & Hne).
  unfold revealEffect. rewrite Hcode. simpl. rewrite Hs. simpl.
  unfold isAnswerReveal. by rewrite (bool_decide_eq_false_2 _ Hne).
Qed.

Lemma advance_closes_reveal_gate_witness :
  advanceFires (Some "ABC123") (revealAt 7) sixteen initialPage
  ∧ ∃ u, advanceUpdates (Some "ABC123") (Some (revealAt 7)) initialPage = [u]
      ∧ revealEffect (Some "ABC123") (delivered (applyUpdates u (revealAt 7)))
                     initialPage
        = (setLoading false initialPage, Waiting).
Proof.
  assert (Hfires : advanceFires (Some "ABC123") (revealAt 7) sixteen
                     initialPage) by (repeat split).
  split; [exact Hfires|].
  destruct (advance_closes_reveal_gate _ _ _ _ Hfires) as (u & Hu & Hgate).
  exists u. split; [exact Hu | exact (Hgate initialPage)].
Defined.

(** X15: at the end of the order and at a category boundary no press
    moves the question index.  The update carries a status and nothing
    else; on the updated record a further press, whatever the state of
    the page it is made on, issues nothing while the guard is up, as on
    the page that issued the update, and otherwise the same update
    again, which then changes nothing. *)
Theorem advance_never_passes_boundary (gameCode : option string)
    (game : Game) (order : list string) (st st' : PageState) :
  advanceFires gameCode game order st →
  Z.of_nat (length order) ≤ currentQuestionIndex game + 1
  ∨ (0 < currentQuestionIndex game + 1
     ∧ (currentQuestionIndex game + 1) mod QUESTIONS_PER_CATEGORY = 0) →
  ∃ s, advanceUpdates gameCode (Some game) st = [onlyStatus s]
    ∧ advanceUpdates gameCode (Some (applyUpdates (onlyStatus s) game)) st'
      = (if isNavigating st' then [] else [onlyStatus s])
    ∧ applyUpdates (onlyStatus s) (applyUpdates (onlyStatus s) game)
      = applyUpdates (onlyStatus s) game
    ∧ currentQuestionIndex (applyUpdates (onlyStatus s) game)
      = currentQuestionIndex game.
Proof.
  intros Hfires Hboundary.
  destruct (advanceUpdates_fires _ _ _ _ Hfires) as (code & Hcode & Hupd).
  assert (Hu : ∃ s, updates (planNextStep code (currentQuestionIndex game)
                               (Z.of_nat (length order))) = onlyStatus s).
  { unfold planNextStep.
    destruct (Z.leb_spec (Z.of_nat (length order))
                         (currentQuestionIndex game + 1)); simpl;
      [by eexists|].
    destruct Hboundary as [?|[Hpos Hmod]]; [lia|].
    destruct (Z.ltb_spec 0 (currentQuestionIndex game + 1)); [|lia].
    rewrite Z.rem_mod_nonneg, Hmod by (unfold QUESTIONS_PER_CATEGORY; lia).
    by eexists. }
  destruct Hu as [s Hu]. rewrite Hu in Hupd.
  exists s. split; [exact Hupd|]. split_and!; [|done|done].
  destruct Hfires as (Htruthy & Horder & _).
  destruct (isNavigating st') eqn:Hnav.
  - unfold advanceUpdates, handleNextStep. rewrite Hcode. simpl.
    by rewrite Horder, Hnav, orb_true_r.
  - assert (Hfires' : advanceFires gameCode
                        (applyUpdates (onlyStatus s) game) order st')
      by (by repeat split).
    destruct (advanceUpdates_fires _ _ _ _ Hfires') as (code' & Hcode' & ->).
    assert (code' = code) as -> by congruence.
    by change (currentQuestionIndex (applyUpdates (onlyStatus s) game))
      with (currentQuestionIndex game); rewrite Hu.
Qed.

Lemma advance_never_passes_boundary_witness :
  advanceFires (Some "ABC123") (revealAt 7) sixteen initialPage
  ∧ ∃ s, advanceUpdates (Some "ABC123") (Some (revealAt 7)) initialPage
         = [onlyStatus s]
      ∧ advanceUpdates (Some "ABC123")
          (Some (applyUpdates (onlyStatus s) (revealAt 7)))
          (setIsNavigating true initialPage) = [].
Proof.
  assert (Hfires : advanceFires (Some "ABC123") (revealAt 7) sixteen
                     initialPage) by (repeat split).
  split; [exact Hfires|].
  destruct (advance_never_passes_boundary (Some "ABC123") (revealAt 7)
              sixteen initialPage (setIsNavigating true initialPage) Hfires)
    as (s & Hs & Hagain & _).
  - right. split; reflexivity.
  - exists s. split; [exact Hs | exact Hagain].
Defined.

(** ** The break watcher and the page between events *)

Lemma breakWatcher_navigating gameCode game st :
  isNavigating st = true → breakWatcher gameCode game st = (st, WatcherIdle).
Proof.
  intros Hnav. unfold breakWatcher. destruct game as [g|]; [|done].
  by rewrite Hnav, andb_false_r.
Qed.

(** X16: the watcher leaves for the break page at most once.  It stays
    idle while an advance is under way and for every status other than
    [leaderboard]; when it leaves it raises the guard, and from then on
    it stays idle on every snapshot. *)
Theorem break_watcher_fires_once (gameCode : option string)
    (game : option Game) (st : PageState) :
  (isNavigating st = true →
   breakWatcher gameCode game st = (st, WatcherIdle))
  ∧ (∀ g, game = Some g → status g ≠ leaderboard →
     breakWatcher gameCode game st = (st, WatcherIdle))
  ∧ (∀ route, snd (breakWatcher gameCode game st) = ToBreakPage route →
     route = ("/admin/break?gameCode=" ++ templateOf gameCode)%string
     ∧ fst (breakWatcher gameCode game st) = setIsNavigating true st
     ∧ ∀ gameCode' game',
         breakWatcher gameCode' game' (fst (breakWatcher gameCode game st))
         = (fst (breakWatcher gameCode game st), WatcherIdle)).
Proof.
  split_and!.
  - apply breakWatcher_navigating.
  - intros g -> Hne. unfold breakWatcher.
    by rewrite (bool_decide_eq_false_2 _ Hne).
  - intros route Hroute. unfold breakWatcher in *.
    destruct game as [g|]; [|done].
    destruct (_ && negb _); [|done].
    destruct (questionOrder g); [|done].
    destruct (_ && _ && _); [|done].
    simpl in *. injection Hroute as <-. split_and!; [done..|].
    intros gameCode' game'. destruct game' as [g'|]; [|done].
    by rewrite andb_false_r.
Qed.

(** X17: at a category boundary the handler itself does not navigate:
    once its update has resolved, the record has the status
    [leaderboard] and the guard is down again, and the watcher, run on
    the updated record, raises the guard and leaves for the break page
    of the same game code.  While the update is in flight the watcher
    stays idle. *)
Theorem break_watcher_takes_over (w : World) (game : Game)
    (order : list string) :
  snapshot w = Some game →
  record w = game →
  advanceFires (code w) game order (page w) →
  pending w = [] →
  currentQuestionIndex game + 1 < Z.of_nat (length order) →
  0 < currentQuestionIndex game + 1 →
  (currentQuestionIndex game + 1) mod QUESTIONS_PER_CATEGORY = 0 →
  let inFlight := run w [Click] in
  let resolved := run w [Click; UpdateResolved] in
  routes resolved = routes w
  ∧ record resolved = applyUpdates (onlyStatus leaderboard) game
  ∧ isNavigating (page resolved) = false
  ∧ snd (breakWatcher (code w) (Some (record resolved)) (page inFlight))
    = WatcherIdle
  ∧ breakWatcher (code w) (Some (record resolved)) (page resolved)
    = (setIsNavigating true (page resolved),
       ToBreakPage ("/admin/break?gameCode=" ++ templateOf (code w))%string).
Proof.
  intros Hsnap Hrec Hfires Hpending Hbelow Hpos Hmod inFlight resolved.
  destruct (handleNextStep_fires _ _ _ _ Hfires) as (c & Hcode & Hstep).
  assert (Hplan : planNextStep c (currentQuestionIndex game)
                    (Z.of_nat (length order))
                  = {| updates := onlyStatus leaderboard;
                       nextRoute := ("/admin/break?gameCode=" ++ c)%string;
                       shouldNavigate := false |}).
  { unfold planNextStep.
    destruct (Z.leb_spec (Z.of_nat (length order))
                         (currentQuestionIndex game + 1)); [lia|].
    destruct (Z.ltb_spec 0 (currentQuestionIndex game + 1)); [|lia].
    rewrite Z.rem_mod_nonneg, Hmod by (unfold QUESTIONS_PER_CATEGORY; lia).
    done. }
  rewrite Hplan in Hstep.
  assert (Hclick : inFlight
            = {| page := setIsNavigating true (page w); code := code w;
                 snapshot := snapshot w; record := record w;
                 pending := [{| updates := onlyStatus leaderboard;
                                nextRoute :=
                                  ("/admin/break?gameCode=" ++ c)%string;
                                shouldNavigate := false |}];
                 calls := calls w ++ [onlyStatus leaderboard];
                 routes := routes w |}).
  { unfold inFlight. rewrite run_cons, run_nil. simpl.
    by rewrite Hsnap, Hstep, Hpending. }
  assert (Hfirst : step w Click = inFlight) by done.
  assert (Hresolved : resolved
            = {| page := setIsNavigating false (setIsNavigating true (page w));
                 code := code w; snapshot := snapshot w;
                 record := applyUpdates (onlyStatus leaderboard) (record w);
                 pending := [];
                 calls := calls w ++ [onlyStatus leaderboard];
                 routes := routes w ++ [] |}).
  { unfold resolved. rewrite run_cons, Hfirst, Hclick, run_cons, run_nil.
    done. }
  rewrite Hresolved, Hclick. simpl. rewrite app_nil_r, Hrec.
  split_and!; try done.
  destruct Hfires as (_ & Horder & _).
  unfold breakWatcher. simpl. rewrite Horder.
  destruct (Z.leb_spec (Z.of_nat (length order))
                       (currentQuestionIndex game + 1)); [lia|].
  destruct (Z.ltb_spec 0 (currentQuestionIndex game + 1)); [|lia].
  rewrite Z.rem_mod_nonneg, Hmod by (unfold QUESTIONS_PER_CATEGORY; lia).
  done.
Qed.

Lemma break_watcher_takes_over_witness :
  let w := {| page := initialPage; code := Some "ABC123";
              snapshot := Some (revealAt 7); record := revealAt 7;
              pending := []; calls := []; routes := [] |} in
  advanceFires (code w) (revealAt 7) sixteen (page w)
  ∧ breakWatcher (code w) (Some (record (run w [Click; UpdateResolved])))
                 (page (run w [Click; UpdateResolved]))
    = (setIsNavigating true (page (run w [Click; UpdateResolved])),
       ToBreakPage "/admin/break?gameCode=ABC123").
Proof.
  intros w.
  assert (Hfires : advanceFires (code w) (revealAt 7) sixteen (page w))
    by (repeat split).
  split; [exact Hfires|].
  destruct (break_watcher_takes_over w (revealAt 7) sixteen eq_refl eq_refl
              Hfires eq_refl) as (_ & _ & _ & _ & Hwatch);
    [reflexivity..|].
  exact Hwatch.
Defined.

Lemma step_guardHolds w e : guardHolds w → guardHolds (step w e).
Proof.
  intros [Hnone|[[next Hone] Hnav]].
  - destruct e; simpl; rewrite ?Hnone; [|by left..].
    destruct (handleNextStep (code w) (snapshot w) (page w))
      as [st [[c next]|]] eqn:Hstep; simpl; [|by left].
    right. simpl. split; [by eexists|].
    unfold handleNextStep in Hstep.
    destruct (code w); [|done]. destruct (snapshot w) as [g|]; [|done].
    destruct (questionOrder g); [|done].
    destruct (_ || _); [done|]. by injection Hstep as <- _ _.
  - destruct e.
    + rewrite click_while_navigating by done. right. split; [by eexists|done].
    + simpl. rewrite Hone.
      destruct (handleNextStep_resolved next (page w)). by left.
    + simpl. rewrite Hone. by left.
Qed.

Lemma run_guardHolds events : ∀ w, guardHolds w → guardHolds (run w events).
Proof.
  induction events as [|e events IH]; intros w Hw; [done|].
  rewrite run_cons. by apply IH, step_guardHolds.
Qed.

(** X18: whatever sequence of presses, successes and failures the page
    goes through, starting with nothing pending, at most one update is
    in flight at any time, and while one is in flight the guard is up. *)
Theorem at_most_one_update_in_flight (w : World) (events : list Event) :
  pending w = [] →
  (length (pending (run w events)) ≤ 1)%nat
  ∧ (pending (run w events) ≠ [] →
     isNavigating (page (run w events)) = true).
Proof.
  intros Hnone.
  destruct (run_guardHolds events w (or_introl Hnone))
    as [Hrun|[[next Hrun] Hnav]]; rewrite Hrun; simpl; split; done || lia.
Qed.

Lemma at_most_one_update_in_flight_witness :
  let w := {| page := initialPage; code := Some "ABC123";
              snapshot := Some (revealAt 2); record := revealAt 2;
              pending := []; calls := []; routes := [] |} in
  pending w = []
  ∧ (length (pending (run w [Click; Click; UpdateRejected; Click; Click]))
     ≤ 1)%nat.
Proof.
  intros w.
  assert (Hnone : pending w = []) by reflexivity.
  split; [exact Hnone|].
  exact (proj1 (at_most_one_update_in_flight w
                  [Click; Click; UpdateRejected; Click; Click] Hnone)).
Defined.

(** X19: an advance to the next question or to the end of the game
    navigates once its update has resolved, to the question page or the
    winners page of the game code, and keeps the guard up: whatever
    happens afterwards, the page issues no further update and navigates
    nowhere else. *)
Theorem page_leaves_after_advance (w : World) (game : Game)
    (order : list string) (events : list Event) :
  snapshot w = Some game →
  advanceFires (code w) game order (page w) →
  pending w = [] →
  Z.of_nat (length order) ≤ currentQuestionIndex game + 1
  ∨ ¬ (0 < currentQuestionIndex game + 1
       ∧ (currentQuestionIndex game + 1) mod QUESTIONS_PER_CATEGORY = 0) →
  let left := run w [Click; UpdateResolved] in
  routes left
  = routes w
    ++ [String.append
          (if bool_decide (Z.of_nat (length order)
                           ≤ currentQuestionIndex game + 1)
           then "/admin/winners?gameCode=" else "/admin/question?gameCode=")
          (templateOf (code w))]
  ∧ length (calls left) = S (length (calls w))
  ∧ run left events = left.
Proof.
  intros Hsnap Hfires Hpending Hbranch left.
  destruct (handleNextStep_fires _ _ _ _ Hfires) as (c & Hcode & Hstep).
  set (next := planNextStep c (currentQuestionIndex game)
                 (Z.of_nat (length order))) in *.
  assert (Hnext : shouldNavigate next = true
                  ∧ nextRoute next
                    = String.append
                        (if bool_decide (Z.of_nat (length order)
                                         ≤ currentQuestionIndex game + 1)
                         then "/admin/winners?gameCode="
                         else "/admin/question?gameCode=") c).
  { unfold next, planNextStep.
    destruct (Z.leb_spec (Z.of_nat (length order))
                         (currentQuestionIndex game + 1)) as [Hend|Hnot].
    - by rewrite bool_decide_eq_true_2.
    - rewrite bool_decide_eq_false_2 by lia.
      destruct Hbranch as [?|Hnobreak]; [lia|].
      destruct (Z.ltb_spec 0 (currentQuestionIndex game + 1)); [|done].
      rewrite Z.rem_mod_nonneg by (unfold QUESTIONS_PER_CATEGORY; lia).
      destruct (Z.eqb_spec ((currentQuestionIndex game + 1)
                              mod QUESTIONS_PER_CATEGORY) 0); [|done].
      exfalso. by apply Hnobreak. }
  destruct Hnext as [Hnav Hroute].
  assert (Hleft : left
            = {| page := setIsNavigating true (page w); code := code w;
                 snapshot := snapshot w;
                 record := applyUpdates (updates next) (record w);
                 pending := []; calls := calls w ++ [updates next];
                 routes := routes w ++ [nextRoute next] |}).
  { unfold left. rewrite !run_cons, run_nil.
    assert (Hclick : step w Click
              = {| page := setIsNavigating true (page w); code := code w;
                   snapshot := snapshot w; record := record w;
                   pending := [next]; calls := calls w ++ [updates next];
                   routes := routes w |}).
    { simpl. by rewrite Hsnap, Hstep, Hpending. }
    rewrite Hclick. simpl. unfold handleNextStep_resolved.
    by rewrite Hnav. }
  rewrite Hleft. simpl. rewrite Hroute, Hcode. simpl.
  split_and!; [done|by rewrite length_app; simpl; lia|].
  clear. induction events as [|e events IH]; [done|].
  rewrite run_cons.
  destruct e; [by rewrite click_while_navigating|done..].
Qed.

Lemma page_leaves_after_advance_witness :
  let w := {| page := initialPage; code := Some "ABC123";
              snapshot := Some (revealAt 2); record := revealAt 2;
              pending := []; calls := []; routes := [] |} in
  advanceFires (code w) (revealAt 2) sixteen (page w)
  ∧ routes (run w [Click; UpdateResolved; Click; UpdateRejected])
    = ["/admin/question?gameCode=ABC123"]
  ∧ length (calls (run w [Click; UpdateResolved; Click; UpdateRejected]))
    = 1%nat.
Proof.
  intros w.
  assert (Hfires : advanceFires (code w) (revealAt 2) sixteen (page w))
    by (repeat split).
  split; [exact Hfires|].
  destruct (page_leaves_after_advance w (revealAt 2) sixteen
              [Click; UpdateRejected] eq_refl Hfires eq_refl)
    as (Hroutes & Hcalls & Hstay).
  - right. intros [_ H]. vm_compute in H. discriminate H.
  - change (run w [Click; UpdateResolved; Click; UpdateRejected])
      with (run (run w [Click; UpdateResolved]) [Click; UpdateRejected]).
    rewrite Hstay. split; [exact Hroutes | exact Hcalls].
Defined.

(** ** The correct-answer text, continued *)

Lemma or_string_nonempty a b : b ≠ "" → or_string a b ≠ "".
Proof.
  intros Hb. unfold or_string. destruct a as [s|]; [|done].
  destruct (String.eqb_spec s ""); done.
Qed.

Lemma fallback_text_nonempty (a : option string) :
  ∃ text, (if truthy_string a then a else Some "N/A") = Some text
          ∧ text ≠ "".
Proof.
  unfold truthy_string. destruct a as [s|]; [|by exists "N/A"].
  destruct (String.eqb_spec s ""); simpl; [by exists "N/A"|by exists s].
Qed.

(** X20: the page shows no correct-answer text in exactly one case: the
    question is outside the free-text category, has options and a
    numeric answer index, and the index is not below the number of
    options.  Without a current question the text is "N/A". *)
Theorem correct_answer_text_blank_iff (q : Question) :
  (derivedCorrectAnswerText (Some q) = None
   ↔ q_category q ≠ freeTextCategory
     ∧ ∃ options i, q_options q = Some options
         ∧ q_correctAnswerIndex q = Some i
         ∧ Z.of_nat (length options) ≤ i)
  ∧ derivedCorrectAnswerText None = Some "N/A".
Proof.
  split; [|done]. unfold derivedCorrectAnswerText.
  destruct (String.eqb_spec (q_category q) freeTextCategory) as [Hcat|Hcat].
  { split; [done|]. by intros [? _]. }
  destruct (fallback_text_nonempty (q_correctAnswer q)) as (text & Htext & _).
  destruct (q_options q) as [options|].
  2: { rewrite Htext. split; [done|]. by intros (_ & ? & ? & ? & _). }
  destruct (q_correctAnswerIndex q) as [i|].
  2: { rewrite Htext. split; [done|]. by intros (_ & ? & ? & _ & ? & _). }
  destruct (Z.leb_spec 0 i) as [Hpos|Hneg].
  - unfold jsIndex. destruct (Z.ltb_spec i 0); [lia|].
    rewrite lookup_ge_None. split.
    + intros Hge. split; [done|]. exists options, i. split_and!; [done..|lia].
    + intros (_ & options' & i' & Ho & Hi & Hge).
      injection Ho as <-. injection Hi as <-. lia.
  - rewrite Htext. split; [done|].
    intros (_ & options' & i' & Ho & Hi & Hge).
    injection Ho as <-. injection Hi as <-. lia.
Qed.

(** X21: for a question of the free-text category, and for any question
    without options or with a missing or negative answer index, the
    page shows a text that is not empty: the question's [correctAnswer]
    when that is a non-empty string, and a placeholder otherwise. *)
Theorem correct_answer_text_fallbacks (q : Question) :
  q_category q = freeTextCategory
  ∨ q_options q = None
  ∨ q_correctAnswerIndex q = None
  ∨ (∃ i, q_correctAnswerIndex q = Some i ∧ i < 0) →
  ∃ text, derivedCorrectAnswerText (Some q) = Some text
    ∧ text ≠ ""
    ∧ (truthy_string (q_correctAnswer q) = true →
       q_correctAnswer q = Some text)
    ∧ (truthy_string (q_correctAnswer q) = false →
       text = if String.eqb (q_category q) freeTextCategory
              then missingAnswerText else "N/A").
Proof.
  intros Hcase. unfold derivedCorrectAnswerText.
  assert (Hor : ∀ b, b ≠ "" →
            or_string (q_correctAnswer q) b ≠ ""
            ∧ (truthy_string (q_correctAnswer q) = true →
               q_correctAnswer q = Some (or_string (q_correctAnswer q) b))
            ∧ (truthy_string (q_correctAnswer q) = false →
               or_string (q_correctAnswer q) b = b)).
  { intros b Hb. split; [by apply or_string_nonempty|].
    unfold truthy_string, or_string.
    destruct (q_correctAnswer q) as [s|]; [|done].
    by destruct (String.eqb s ""). }
  assert (Hfallback :
    (if truthy_string (q_correctAnswer q) then q_correctAnswer q
     else Some "N/A") = Some (or_string (q_correctAnswer q) "N/A")).
  { unfold truthy_string, or_string.
    destruct (q_correctAnswer q) as [s|]; [|done].
    by destruct (String.eqb s ""). }
  destruct (String.eqb_spec (q_category q) freeTextCategory) as [Hcat|Hcat].
  { eexists. split; [reflexivity|]. by apply Hor. }
  assert (Hdone : ∃ text,
            Some (or_string (q_correctAnswer q) "N/A") = Some text
            ∧ text ≠ ""
            ∧ (truthy_string (q_correctAnswer q) = true →
               q_correctAnswer q = Some text)
            ∧ (truthy_string (q_correctAnswer q) = false → text = "N/A")).
  { eexists. split; [reflexivity|]. by apply Hor. }
  destruct Hcase as [?|[Hnone|[Hnone|(i & Hi & Hneg)]]]; [done|..].
  - rewrite Hnone. by rewrite Hfallback.
  - rewrite Hnone. destruct (q_options q); by rewrite Hfallback.
  - rewrite Hi. destruct (q_options q); [|by rewrite Hfallback].
    destruct (Z.leb_spec 0 i); [lia|]. by rewrite Hfallback.
Qed.

Lemma correct_answer_text_fallbacks_witness :
  let q := {| q_id := "q5"; q_text := "Koji je ovo crtani?";
              q_category := "Pogodite crtani"; q_options := None;
              q_correctAnswerIndex := None; q_correctAnswer := Some "" |} in
  q_category q = freeTextCategory
  ∧ derivedCorrectAnswerText (Some q) = Some missingAnswerText.
Proof.
  intros q.
  assert (Hcat : q_category q = freeTextCategory) by reflexivity.
  split; [exact Hcat|].
  destruct (correct_answer_text_fallbacks q (or_introl Hcat))
    as (text & Htext & _ & _ & Hmissing).
  rewrite Htext. f_equal. exact (Hmissing eq_refl).
Defined.

(** ** Names and active teams *)

Lemma displayName_nonempty team : displayName team ≠ "".
Proof.
  unfold displayName, or_string. destruct (t_name team) as [s|]; [|done].
  destruct (String.eqb_spec s ""); done.
Qed.

(** X22: every row of the answer board carries a name that is not
    empty: the name of the team when the team has a non-empty one, and
    otherwise "Team " followed by the first four characters of its
    identifier. *)
Theorem board_names_never_empty (localeCompare : string → string → Z)
    (activeTeams : list Team) (resultOf : string → option TeamAnswerResult) :
  Forall (λ row,
     teamName row ≠ ""
     ∧ ∃ team, team ∈ activeTeams ∧ teamId row = t_id team
         ∧ teamName row
           = match t_name team with
             | Some name =>
                 if String.eqb name ""
                 then ("Team " ++ String.substring 0 4 (t_id team))%string
                 else name
             | None => ("Team " ++ String.substring 0 4 (t_id team))%string
             end)
    (processedAnswers localeCompare activeTeams resultOf).
Proof.
  rewrite processedAnswers_Permutation, Forall_fmap.
  apply Forall_forall. intros team Hin. simpl.
  assert (Hname : teamName (processAnswer team (resultOf (t_id team)))
                  = displayName team)
    by (by destruct (resultOf (t_id team))).
  assert (Hid : teamId (processAnswer team (resultOf (t_id team)))
                = t_id team)
    by (by destruct (resultOf (t_id team))).
  rewrite Hname, Hid. split; [apply displayName_nonempty|].
  exists team. split_and!; [done..|].
  unfold displayName, or_string. by destruct (t_name team).
Qed.

Lemma rankedTeamsData_teams activeTeams (allScores : gmap string TeamScore) :
  (λ r, ws_team (rt_team r)) <$> rankedTeamsData activeTeams allScores
  ≡ₚ activeTeams.
Proof.
  assert (Hsplit : (λ r, ws_team (rt_team r))
                     <$> rankedTeamsData activeTeams allScores
                   = ws_team <$> (rt_team
                                    <$> rankedTeamsData activeTeams allScores))
    by (by rewrite <- list_fmap_compose).
  rewrite Hsplit. unfold rankedTeamsData. rewrite rankTeams_teams.
  unfold sortByPoints. rewrite sort_Permutation.
  assert (Hid : ws_team <$> teamsWithScores activeTeams allScores
                = activeTeams).
  { clear Hsplit. unfold teamsWithScores.
    induction activeTeams as [|team l IH]; [done|].
    cbn [map]. rewrite fmap_cons. by f_equal. }
  by rewrite Hid.
Qed.

(** X23: a team marked [isActive = false] is on neither list: the
    answer board and the leaderboard have one row for each fetched team
    that is not marked so, teams without the mark included, and every
    ranked team is such a team. *)
Theorem inactive_teams_left_out (localeCompare : string → string → Z)
    (allTeams : list Team) (resultOf : string → option TeamAnswerResult)
    (allScores : gmap string TeamScore) :
  let kept := filter (λ team, t_isActive team ≠ Some false) allTeams in
  let board := processedAnswers localeCompare (activeTeamsOf allTeams)
                 resultOf in
  let ranked := rankedTeamsData (activeTeamsOf allTeams) allScores in
  teamId <$> board ≡ₚ t_id <$> kept
  ∧ (λ r, ws_team (rt_team r)) <$> ranked ≡ₚ kept
  ∧ Forall (λ r, t_isActive (ws_team (rt_team r)) ≠ Some false
                 ∧ ws_team (rt_team r) ∈ allTeams) ranked
  ∧ length board = length kept ∧ length ranked = length kept.
Proof.
  intros kept board ranked.
  assert (Hkept : activeTeamsOf allTeams = kept).
  { unfold activeTeamsOf, kept. apply list_filter_iff. intros team.
    unfold isActiveTeam. destruct (t_isActive team) as [[]|]; naive_solver. }
  assert (Hboard : teamId <$> board ≡ₚ t_id <$> kept).
  { unfold board. rewrite processedAnswers_Permutation, Hkept.
    rewrite <- list_fmap_compose.
    erewrite list_fmap_ext; [reflexivity|].
    intros _ team _. simpl. by destruct (resultOf (t_id team)). }
  assert (Hranked : (λ r, ws_team (rt_team r)) <$> ranked ≡ₚ kept).
  { unfold ranked. by rewrite rankedTeamsData_teams, Hkept. }
  split_and!; [done|done| | |].
  - apply Forall_forall. intros r Hr.
    assert (Hin : ws_team (rt_team r) ∈ kept).
    { rewrite <- Hranked.
      by apply (list_elem_of_fmap_2 (λ r, ws_team (rt_team r))). }
    unfold kept in Hin. apply list_elem_of_filter in Hin. done.
  - apply Permutation_length in Hboard. by rewrite !length_fmap in Hboard.
  - apply Permutation_length in Hranked. by rewrite !length_fmap in Hranked.
Qed.

(** ** The QR-code page *)

(** X24: the game code of the QR-code page is the one kept in
    [localStorage] afterwards, under its own key and with every other
    key untouched; a stored non-empty code is reused without a write,
    and a non-empty code survives a reload: initialising again returns
    the same code, whatever the generator yields then. *)
Theorem game_code_persists (localStorage : gmap string string)
    (newGameCode laterGameCode : string) :
  let gameCode := fst (initGameCode localStorage newGameCode) in
  let stored := snd (initGameCode localStorage newGameCode) in
  stored !! adminGameCodeKey = Some gameCode
  ∧ (∀ key, key ≠ adminGameCodeKey → stored !! key = localStorage !! key)
  ∧ (truthy_string (localStorage !! adminGameCodeKey) = true →
     stored = localStorage)
  ∧ (truthy_string (localStorage !! adminGameCodeKey) = false →
     gameCode = newGameCode)
  ∧ (gameCode ≠ "" → initGameCode stored laterGameCode = (gameCode, stored)).
Proof.
  unfold initGameCode, truthy_string. cbv zeta.
  destruct (localStorage !! adminGameCodeKey) as [c|] eqn:Hlookup.
  - destruct (String.eqb_spec c "") as [->|Hne]; simpl.
    + split_and!; try done.
      * apply lookup_insert_eq.
      * intros key Hkey. by apply lookup_insert_ne.
      * intros Hnew. rewrite lookup_insert_eq.
        by destruct (String.eqb_spec newGameCode "").
    + split_and!; try done.
      intros _. rewrite Hlookup. by destruct (String.eqb_spec c "").
  - simpl. split_and!; try done.
    + apply lookup_insert_eq.
    + intros key Hkey. by apply lookup_insert_ne.
    + intros Hnew. rewrite lookup_insert_eq.
      by destruct (String.eqb_spec newGameCode "").
Qed.

(** X25: the teams the QR-code page counts as connected are exactly the
    teams the reveal page ranks for the same fetched teams; without a
    snapshot value the page counts none, and filtering twice changes
    nothing. *)
Theorem connected_teams_are_ranked_teams (teamsData : list Team)
    (allScores : gmap string TeamScore) :
  onTeamsSnapshot (Some teamsData)
  ≡ₚ (λ r, ws_team (rt_team r))
     <$> rankedTeamsData (activeTeamsOf teamsData) allScores
  ∧ length (onTeamsSnapshot (Some teamsData))
    = length (rankedTeamsData (activeTeamsOf teamsData) allScores)
  ∧ (length (onTeamsSnapshot (Some teamsData)) ≤ length teamsData)%nat
  ∧ onTeamsSnapshot (Some (onTeamsSnapshot (Some teamsData)))
    = onTeamsSnapshot (Some teamsData)
  ∧ onTeamsSnapshot None = [].
Proof.
  assert (Hperm : onTeamsSnapshot (Some teamsData)
                  ≡ₚ (λ r, ws_team (rt_team r))
                     <$> rankedTeamsData (activeTeamsOf teamsData) allScores)
    by (by rewrite rankedTeamsData_teams).
  split_and!; [done| | | |done].
  - apply Permutation_length in Hperm. by rewrite length_fmap in Hperm.
  - simpl. apply length_filter.
  - clear Hperm. simpl. induction teamsData as [|team l IH]; [done|].
    rewrite filter_cons. destruct (decide (isActiveTeam team = true)) as [H|H].
    + rewrite filter_cons. destruct (decide (isActiveTeam team = true));
        [by f_equal|done].
    + exact IH.
Qed.
